(** * WarpLink React Native SDK: the TypeScript bridge layer

    A shallow embedding of [src/WarpLink.ts] (with [src/types.ts] and
    the interface of [src/NativeWarpLink.ts]) and of the parts of the
    two native modules it talks to ([WarpLinkModule.kt],
    [WarpLinkModule.swift]), followed by the properties of its
    normalizers, error mapping, key validation, listener multiplexer and
    cold-start retrieval.

    [NativeWarpLink] is the linked native module throughout.  The proxy
    that NativeWarpLink.ts puts in its place when the package is not
    linked throws on every property access, so that every entry point
    fails with the linking error; it is not modelled. *)

From Stdlib Require Import Floats.PrimFloat.
From Stdlib Require Import String Ascii List Bool Arith ZArith Uint63 Lia.
From stdpp Require Import base option list strings.
Import ListNotations.

Local Open Scope string_scope.
Local Open Scope list_scope.

(** ** JavaScript values crossing the bridge

    The native modules resolve their promises with bridge-serialisable
    data (a [WritableMap] / [NSDictionary]): [null], booleans, IEEE-754
    doubles, strings, arrays and string-keyed objects.  [undefined] is
    what a missing property reads as.  Numbers are Rocq's binary64
    floats; an object is the ordered list of its own properties.  No
    function crosses the bridge: no value below can be called. *)

#[warnings="-register-all"]
Inductive JSValue : Type :=
| JSUndefined
| JSNull
| JSBoolean (b : bool)
| JSNumber (n : float)
| JSString (s : string)
| JSArray (elems : list JSValue)
| JSObject (props : list (string * JSValue)).

(** [typeof v] *)
Definition typeof (v : JSValue) : string :=
  match v with
  | JSUndefined => "undefined"
  | JSNull => "object"
  | JSBoolean _ => "boolean"
  | JSNumber _ => "number"
  | JSString _ => "string"
  | JSArray _ => "object"
  | JSObject _ => "object"
  end.

(** [v == null] (loose equality: true of [null] and [undefined] only);
    it is also the test behind [v ?? d]. *)
Definition eq_null (v : JSValue) : bool :=
  match v with
  | JSUndefined | JSNull => true
  | _ => false
  end.

(** [v ?? d] *)
Definition nullish_coalesce (v d : JSValue) : JSValue :=
  if eq_null v then d else v.

(** [v === s] for a string literal [s] *)
Definition strict_eq_string (v : JSValue) (s : string) : bool :=
  match v with
  | JSString s' => String.eqb s' s
  | _ => false
  end.

(** First binding of [key] among the own properties. *)
Fixpoint assoc (key : string) (props : list (string * JSValue)) : option JSValue :=
  match props with
  | [] => None
  | (k, v) :: rest => if String.eqb k key then Some v else assoc key rest
  end.

(** [obj[key]] for the property names this module reads: none of them
    is an index or a member of [Array.prototype] / [Object.prototype],
    so an array (and any missing key) reads as [undefined]. *)
Definition get (obj : JSValue) (key : string) : JSValue :=
  match obj with
  | JSObject props =>
      match assoc key props with
      | Some v => v
      | None => JSUndefined
      end
  | _ => JSUndefined
  end.

(** [Array.prototype.join] on already converted items. *)
Fixpoint join (sep : string) (parts : list string) : string :=
  match parts with
  | [] => ""
  | [p] => p
  | p :: rest => p +:+ sep +:+ join sep rest
  end.

(** [Boolean(v)] *)
Definition ToBoolean (v : JSValue) : bool :=
  match v with
  | JSUndefined | JSNull => false
  | JSBoolean b => b
  | JSNumber n => negb (PrimFloat.eqb n 0 || negb (PrimFloat.eqb n n))
  | JSString s => negb (String.eqb s "")
  | JSArray _ | JSObject _ => true
  end.

Module MatchType.
Inductive t : Type := deterministic | probabilistic.

Definition to_string (m : t) : string :=
  match m with
  | deterministic => "deterministic"
  | probabilistic => "probabilistic"
  end.
End MatchType.

(** [interface WarpLinkDeepLink] of types.ts *)
Module WarpLinkDeepLink.
Record t : Type := mk {
  linkId : string;
  destination : string;
  deepLinkUrl : option string;
  customParams : JSValue;
  isDeferred : bool;
  matchType : option MatchType.t;
  matchConfidence : option float
}.
End WarpLinkDeepLink.

(** [interface AttributionResult] of types.ts *)
Module AttributionResult.
Record t : Type := mk {
  linkId : string;
  matchType : MatchType.t;
  matchConfidence : float;
  isDeferred : bool;
  installId : option string
}.
End AttributionResult.

(** [ErrorCodes] of types.ts: the error kinds are string constants. *)
Module ErrorCodes.
Definition E_NOT_CONFIGURED := "E_NOT_CONFIGURED".
Definition E_INVALID_API_KEY_FORMAT := "E_INVALID_API_KEY_FORMAT".
Definition E_INVALID_API_KEY := "E_INVALID_API_KEY".
Definition E_NETWORK_ERROR := "E_NETWORK_ERROR".
Definition E_SERVER_ERROR := "E_SERVER_ERROR".
Definition E_INVALID_URL := "E_INVALID_URL".
Definition E_LINK_NOT_FOUND := "E_LINK_NOT_FOUND".
Definition E_DECODING_ERROR := "E_DECODING_ERROR".

(** [Object.values(ErrorCodes)] *)
Definition values : list string :=
  [ E_NOT_CONFIGURED; E_INVALID_API_KEY_FORMAT; E_INVALID_API_KEY;
    E_NETWORK_ERROR; E_SERVER_ERROR; E_INVALID_URL; E_LINK_NOT_FOUND;
    E_DECODING_ERROR ].
End ErrorCodes.

(** [class WarpLinkError extends Error]: a code and a message. *)
Module WarpLinkError.
Record t : Type := mk { code : string; message : string }.
End WarpLinkError.

(** What a promise rejects with, or a [throw] raises: an instance of
    [Error] (its [message], and its [code] property, [undefined] when it
    has none), or any other value. *)
Inductive Thrown : Type :=
| ErrorInstance (message : string) (code : JSValue)
| NonError (v : JSValue).

(** A [WarpLinkError] seen as a thrown value. *)
Definition throw_WarpLinkError (e : WarpLinkError.t) : Thrown :=
  ErrorInstance (WarpLinkError.message e) (JSString (WarpLinkError.code e)).

(** ** Outcomes

    How a call completes: a synchronous call returns or throws, a
    promise is fulfilled or rejected. *)

Inductive Outcome (A E : Type) : Type :=
| Success (a : A)
| Failure (e : E).

Arguments Success {A E} a.
Arguments Failure {A E} e.

(** What a promise of the native module settles with. *)
Definition Settlement : Type := Outcome JSValue Thrown.

(** Sequencing: the next step runs on the value of the first, a
    failure of the first is the failure of the whole. *)
Definition and_then {A B E : Type} (o : Outcome A E) (k : A -> Outcome B E)
  : Outcome B E :=
  match o with
  | Success a => k a
  | Failure e => Failure e
  end.

(** What a promise of the TypeScript layer rejects with: the
    [WarpLinkError] that [mapNativeError] returned, or what
    [mapNativeError] itself threw inside the [catch] block. *)
Inductive Rejection : Type :=
| Typed (e : WarpLinkError.t)
| Raw (thrown : Thrown).

(** A rejection seen as the value a surrounding [catch] receives. *)
Definition thrown_of (r : Rejection) : Thrown :=
  match r with
  | Typed e => throw_WarpLinkError e
  | Raw thrown => thrown
  end.

(** ** The Android module's serializer

    [WarpLinkModule.kt], lines 157-205.  The link is the SDK's
    [app.warplink.sdk.WarpLinkDeepLink], as far as [serializeDeepLink]
    reads it: the setters it calls ([putString], [putBoolean],
    [putDouble], [putMap]) fix the field types.  A value of
    [customParams] is a Kotlin [Any?]; of a value that is none of
    [String], [Int], [Double], [Boolean], [null] the code uses
    [toString()] only, so such a value is carried as that string.  A
    [WritableMap] reaches JavaScript as an object, an [Int] or [Double]
    in it as a number. *)

Inductive KotlinAny : Type :=
| KString (s : string)
| KInt (i : Z)
| KDouble (d : float)
| KBoolean (b : bool)
| KNull
| KOther (printed : string).

Module SdkDeepLink.
Record t : Type := mk {
  linkId : string;
  destination : string;
  deepLinkUrl : option string;
  customParams : list (string * KotlinAny);
  isDeferred : bool;
  matchType : option string;
  matchConfidence : option float
}.
End SdkDeepLink.

(** The number JavaScript sees for a Kotlin [Int]. *)
Definition Int_toDouble (i : Z) : float :=
  if (i <? 0)%Z
  then PrimFloat.opp (PrimFloat.of_uint63 (Uint63.of_Z (- i)))
  else PrimFloat.of_uint63 (Uint63.of_Z i).

(** One entry of [toWritableMap]: the [when (value)] branches. *)
Definition putAny (value : KotlinAny) : JSValue :=
  match value with
  | KString s => JSString s
  | KInt i => JSNumber (Int_toDouble i)
  | KDouble d => JSNumber d
  | KBoolean b => JSBoolean b
  | KNull => JSNull
  | KOther printed => JSString printed
  end.

Definition toWritableMap (params : list (string * KotlinAny)) : list (string * JSValue) :=
  List.map (fun entry => (fst entry, putAny (snd entry))) params.

(** [putString] with a nullable argument, else [putNull]. *)
Definition putNullable {A : Type} (inj : A -> JSValue) (o : option A) : JSValue :=
  match o with
  | Some a => inj a
  | None => JSNull
  end.

Definition serializeDeepLink (link : SdkDeepLink.t) : JSValue :=
  JSObject
    [ ("linkId", JSString (SdkDeepLink.linkId link));
      ("destination", JSString (SdkDeepLink.destination link));
      ("deepLinkUrl", putNullable JSString (SdkDeepLink.deepLinkUrl link));
      ("customParams", JSObject (toWritableMap (SdkDeepLink.customParams link)));
      ("isDeferred", JSBoolean (SdkDeepLink.isDeferred link));
      ("matchType", putNullable JSString (SdkDeepLink.matchType link));
      ("matchConfidence", putNullable JSNumber (SdkDeepLink.matchConfidence link)) ].

(** The Kotlin [getAttributionResult]: what its promise settles with,
    given the SDK's [isConfigured] and [attributionResult].
    [promise.reject(code, message)] reaches JavaScript as an [Error]
    carrying that message and that [code]. *)
Definition android_getAttributionResult
    (isConfigured : bool) (attributionResult : option SdkDeepLink.t) : Settlement :=
  if negb isConfigured
  then Failure (ErrorInstance "SDK not configured" (JSString "E_NOT_CONFIGURED"))
  else
    match attributionResult with
    | Some attribution => Success (serializeDeepLink attribution)
    | None => Success JSNull
    end.

(** The Kotlin [handleDeepLink] and [checkDeferredDeepLink], on a
    successful SDK result: the link serialized, or [null]. *)
Definition android_resolve_success (deepLink : option SdkDeepLink.t) : Settlement :=
  match deepLink with
  | Some link => Success (serializeDeepLink link)
  | None => Success JSNull
  end.

(** Induction on values, through the items of arrays. *)
Fixpoint JSValue_nested_ind (P : JSValue -> Prop)
  (HUndefined : P JSUndefined) (HNull : P JSNull)
  (HBoolean : forall b, P (JSBoolean b)) (HNumber : forall n, P (JSNumber n))
  (HString : forall s, P (JSString s))
  (HArray : forall elems, Forall P elems -> P (JSArray elems))
  (HObject : forall props, P (JSObject props))
  (v : JSValue) {struct v} : P v :=
  match v with
  | JSUndefined => HUndefined
  | JSNull => HNull
  | JSBoolean b => HBoolean b
  | JSNumber n => HNumber n
  | JSString s => HString s
  | JSArray elems =>
      HArray elems
        ((fix items (es : list JSValue) : Forall P es :=
            match es with
            | [] => @List.Forall_nil JSValue P
            | e :: es' =>
                @List.Forall_cons JSValue P e es'
                  (JSValue_nested_ind P HUndefined HNull HBoolean HNumber HString
                     HArray HObject e)
                  (items es')
            end) elems)
  | JSObject props => HObject props
  end.

Section Bridge.

(** ECMAScript's Number::toString, which [String(v)] uses on numbers. *)
Variable Number_toString : float -> string.

(** The message the engine gives the TypeError of a failed conversion
    to a primitive value. *)
Variable TypeError_message : string.

(** The TypeError itself: an [Error] instance without a [code]. *)
Definition TypeError : Thrown := ErrorInstance TypeError_message JSUndefined.

(** [String(v)]: the string, or the TypeError it throws.  On an object
    the conversion is OrdinaryToPrimitive with hint string: it reads
    [toString] and calls it if it can be called, then [valueOf], and
    throws a TypeError when neither gave a primitive.  Bridge data holds
    no functions, so an own [toString] property hides
    [Object.prototype.toString] behind a value that cannot be called,
    and [valueOf], own or inherited, gives no primitive: the conversion
    throws.  Without an own [toString] the inherited one answers.  An
    array is joined ([Array.prototype.toString]), its items converted
    from left to right, [null] and [undefined] as the empty string. *)
Fixpoint ToString (v : JSValue) : Outcome string Thrown :=
  match v with
  | JSUndefined => Success "undefined"
  | JSNull => Success "null"
  | JSBoolean b => Success (if b then "true" else "false")
  | JSNumber n => Success (Number_toString n)
  | JSString s => Success s
  | JSArray elems =>
      and_then
        ((fix items (es : list JSValue) : Outcome (list string) Thrown :=
            match es with
            | [] => Success []
            | e :: es' =>
                and_then (if eq_null e then Success "" else ToString e)
                  (fun part =>
                     and_then (items es') (fun parts => Success (part :: parts)))
            end) elems)
        (fun parts => Success (join "," parts))
  | JSObject props =>
      match assoc "toString" props with
      | Some _ => Failure TypeError
      | None => Success "[object Object]"
      end
  end.

(** The cast [code as ErrorCode]: only applied to a value that passed
    [isErrorCode], which is then a string. *)
Definition as_string (v : JSValue) : string :=
  match v with
  | JSString s => s
  | _ => ""
  end.

Definition isErrorCode (code : JSValue) : bool :=
  existsb (strict_eq_string code) ErrorCodes.values.

(** [mapNativeError(error)]: the [WarpLinkError] it returns, or what it
    throws ([String(error)] is evaluated before the error is built). *)
Definition mapNativeError (error : Thrown) : Outcome WarpLinkError.t Thrown :=
  match error with
  | ErrorInstance message code =>
      let code' :=
        if ToBoolean code && isErrorCode code
        then as_string code
        else ErrorCodes.E_SERVER_ERROR in
      Success (WarpLinkError.mk code' message)
  | NonError v =>
      and_then (ToString v)
        (fun message => Success (WarpLinkError.mk ErrorCodes.E_SERVER_ERROR message))
  end.

Definition deserializeMatchType (value : JSValue) : option MatchType.t :=
  if strict_eq_string value "deterministic" then Some MatchType.deterministic
  else if strict_eq_string value "probabilistic" then Some MatchType.probabilistic
  else None.

(** [deserializeDeepLink(raw)]: what it returns, or what it throws.
    The properties of the object literal are evaluated in the order
    they are written; only the three [String(...)] calls can throw. *)
Definition deserializeDeepLink (raw : JSValue)
  : Outcome (option WarpLinkDeepLink.t) Thrown :=
  if eq_null raw || negb (String.eqb (typeof raw) "object") then Success None
  else
    let obj := raw in
    and_then (ToString (nullish_coalesce (get obj "linkId") (JSString "")))
      (fun linkId =>
    and_then (ToString (nullish_coalesce (get obj "destination") (JSString "")))
      (fun destination =>
    and_then
      (if negb (eq_null (get obj "deepLinkUrl"))
       then and_then (ToString (get obj "deepLinkUrl")) (fun s => Success (Some s))
       else Success None)
      (fun deepLinkUrl =>
    Success (Some {|
      WarpLinkDeepLink.linkId := linkId;
      WarpLinkDeepLink.destination := destination;
      WarpLinkDeepLink.deepLinkUrl := deepLinkUrl;
      WarpLinkDeepLink.customParams :=
        if negb (eq_null (get obj "customParams"))
           && String.eqb (typeof (get obj "customParams")) "object"
        then get obj "customParams"
        else JSObject [];
      WarpLinkDeepLink.isDeferred := ToBoolean (get obj "isDeferred");
      WarpLinkDeepLink.matchType := deserializeMatchType (get obj "matchType");
      WarpLinkDeepLink.matchConfidence :=
        match get obj "matchConfidence" with
        | JSNumber n => Some n
        | _ => None
        end
    |})))).

(** [deserializeAttributionResult(raw)]: the three [return null] come
    before the one [String(...)] call. *)
Definition deserializeAttributionResult (raw : JSValue)
  : Outcome (option AttributionResult.t) Thrown :=
  if eq_null raw || negb (String.eqb (typeof raw) "object") then Success None
  else
    let obj := raw in
    match deserializeMatchType (get obj "matchType") with
    | None => Success None
    | Some matchType =>
        match get obj "matchConfidence" with
        | JSNumber matchConfidence =>
            and_then (ToString (nullish_coalesce (get obj "linkId") (JSString "")))
              (fun linkId =>
            Success (Some {|
              AttributionResult.linkId := linkId;
              AttributionResult.matchType := matchType;
              AttributionResult.matchConfidence := matchConfidence;
              AttributionResult.isDeferred := ToBoolean (get obj "isDeferred");
              AttributionResult.installId :=
                match get obj "installId" with
                | JSString s => Some s
                | _ => None
                end
            |}))
        | _ => Success None
        end
    end.

(** ** The API key pattern

    [API_KEY_PATTERN = /^wl_(live|test)_[a-zA-Z0-9]{32}$/].  The pattern
    is kept as a regular expression and run by a derivative matcher;
    with [^] and [$] and no flag, [test] accepts exactly the strings the
    body matches as a whole.  Characters are the 8-bit ones of [string]:
    a code unit above 127 is one more non-alphanumeric character. *)

Inductive regex : Type :=
| Never
| Eps
| Chr (c : ascii)
| Class (ranges : list (ascii * ascii))
| Cat (r1 r2 : regex)
| Alt (r1 r2 : regex).

(** [r{n}] *)
Fixpoint times (n : nat) (r : regex) : regex :=
  match n with
  | O => Eps
  | S n' => Cat r (times n' r)
  end.

(** A literal run of characters. *)
Fixpoint literal (cs : list ascii) : regex :=
  match cs with
  | [] => Eps
  | c :: cs' => Cat (Chr c) (literal cs')
  end.

Definition in_range (c : ascii) (range : ascii * ascii) : bool :=
  Nat.leb (nat_of_ascii (fst range)) (nat_of_ascii c)
  && Nat.leb (nat_of_ascii c) (nat_of_ascii (snd range)).

Definition in_class (c : ascii) (ranges : list (ascii * ascii)) : bool :=
  existsb (in_range c) ranges.

Fixpoint nullable (r : regex) : bool :=
  match r with
  | Never => false
  | Eps => true
  | Chr _ => false
  | Class _ => false
  | Cat r1 r2 => nullable r1 && nullable r2
  | Alt r1 r2 => nullable r1 || nullable r2
  end.

Fixpoint deriv (c : ascii) (r : regex) : regex :=
  match r with
  | Never => Never
  | Eps => Never
  | Chr c' => if Ascii.eqb c c' then Eps else Never
  | Class ranges => if in_class c ranges then Eps else Never
  | Cat r1 r2 =>
      if nullable r1
      then Alt (Cat (deriv c r1) r2) (deriv c r2)
      else Cat (deriv c r1) r2
  | Alt r1 r2 => Alt (deriv c r1) (deriv c r2)
  end.

Fixpoint accepts (r : regex) (cs : list ascii) : bool :=
  match cs with
  | [] => nullable r
  | c :: cs' => accepts (deriv c r) cs'
  end.

(** [pattern.test(s)] for an anchored pattern without flags. *)
Definition RegExp_test (r : regex) (s : string) : bool :=
  accepts r (list_ascii_of_string s).

Definition alnum_ranges : list (ascii * ascii) :=
  [ ("a"%char, "z"%char); ("A"%char, "Z"%char); ("0"%char, "9"%char) ].

Definition API_KEY_PATTERN : regex :=
  Cat (literal (list_ascii_of_string "wl_"))
    (Cat (Alt (literal (list_ascii_of_string "live"))
              (literal (list_ascii_of_string "test")))
      (Cat (Chr "_"%char) (times 32 (Class alnum_ranges)))).

(** The language of a regular expression, against which the matcher is
    justified. *)
Fixpoint matches (r : regex) (cs : list ascii) : Prop :=
  match r with
  | Never => False
  | Eps => cs = []
  | Chr c => cs = [c]
  | Class ranges => exists c, cs = [c] /\ in_class c ranges = true
  | Cat r1 r2 => exists cs1 cs2, cs = cs1 ++ cs2 /\ matches r1 cs1 /\ matches r2 cs2
  | Alt r1 r2 => matches r1 cs \/ matches r2 cs
  end.

(** The key format in the documentation's words: [wl_live_] or
    [wl_test_] followed by exactly 32 alphanumeric characters. *)
Definition alphanumeric (c : ascii) : Prop :=
  let n := nat_of_ascii c in
  (97 <= n <= 122)%nat \/ (65 <= n <= 90)%nat \/ (48 <= n <= 57)%nat.

Definition well_formed_key (key : string) : Prop :=
  exists env suffix : string,
    (env = "live" \/ env = "test")
    /\ key = "wl_" +:+ env +:+ "_" +:+ suffix
    /\ String.length suffix = 32
    /\ Forall alphanumeric (list_ascii_of_string suffix).

(** The methods of [NativeWarpLinkModule] (NativeWarpLink.ts), as the
    calls observed at the bridge. *)
Inductive NativeCall : Type :=
| CallConfigure (config : list (string * JSValue))
| CallHandleDeepLink (url : string)
| CallCheckDeferredDeepLink
| CallGetAttributionResult
| CallIsConfigured
| CallGetInitialURL.

(** ** The native modules

    [WarpLinkModule.kt] keeps [initialURL], set once in [init].
    [WarpLinkModule.swift] keeps the static [pendingURL] and
    [hasListeners]; its superclass [RCTEventEmitter] (React Native)
    counts the JavaScript listeners and calls [startObserving] /
    [stopObserving] when the count leaves or reaches zero.  A
    [sharedInstance] that is still [nil] behaves as [hasListeners =
    false]. *)

Inductive NativeModule : Type :=
| AndroidModule (initialURL : option string)
| IOSModule (pendingURL : option string) (hasListeners : bool) (listenerCount : nat).

(** [getInitialURL]: both platforms hand the slot out and clear it. *)
Definition getInitialURL (m : NativeModule) : option string * NativeModule :=
  match m with
  | AndroidModule initialURL => (initialURL, AndroidModule None)
  | IOSModule pendingURL hasListeners n => (pendingURL, IOSModule None hasListeners n)
  end.

(** [RCTEventEmitter addListener:] (there is none on the Kotlin module). *)
Definition native_addListener (m : NativeModule) : NativeModule :=
  match m with
  | AndroidModule u => AndroidModule u
  | IOSModule p h n => IOSModule p (if Nat.eqb (S n) 1 then true else h) (S n)
  end.

(** [RCTEventEmitter removeListeners:1] *)
Definition native_removeListeners (m : NativeModule) : NativeModule :=
  match m with
  | AndroidModule u => AndroidModule u
  | IOSModule p h n => IOSModule p (if Nat.eqb (n - 1) 0 then false else h) (n - 1)
  end.

(** React Native's [NativeEventEmitter], as this module uses it: the
    subscriptions to [DEEP_LINK_EVENT], each the handler
    [handleNativeDeepLinkEvent] under the id of its
    [EmitterSubscription]. *)
Record NativeEventEmitter : Type := {
  handlers : list nat;
  nextId : nat
}.

Definition Listener : Type := nat.

(** [type DeepLinkEvent]: exactly one of the two arms. *)
Inductive DeepLinkEvent : Type :=
| DeepLinkArm (deepLink : WarpLinkDeepLink.t)
| ErrorArm (error : WarpLinkError.t).

(** ** Module state of WarpLink.ts

    [emitter], [listeners] and [nativeSubscription] are the three
    module-level variables.  [listeners] is the [[SetData]] list of the
    ECMAScript [Set]: [delete] leaves an empty slot ([None]), [add]
    appends, and an iterator walks the list by index, re-reading its
    length after every element.  [native] is the native module behind
    the bridge.  The last three fields are observations: the calls made
    on [NativeWarpLink], the push resolutions awaiting their promise,
    and the listener invocations, in order. *)
Record State : Type := {
  emitter : option NativeEventEmitter;
  listeners : list (option Listener);
  nativeSubscription : option nat;
  native : NativeModule;
  calls : list NativeCall;
  inflight : list string;
  delivered : list (Listener * DeepLinkEvent)
}.

Definition initial (m : NativeModule) : State :=
  {| emitter := None; listeners := []; nativeSubscription := None;
     native := m; calls := []; inflight := []; delivered := [] |}.

(** The members of the set, in insertion order ([listeners.values()]). *)
Fixpoint Set_values (entries : list (option Listener)) : list Listener :=
  match entries with
  | [] => []
  | Some l :: rest => l :: Set_values rest
  | None :: rest => Set_values rest
  end.

(** [listeners.size] *)
Definition Set_size (entries : list (option Listener)) : nat :=
  length (Set_values entries).

(** [listeners.add(l)] *)
Definition Set_add (l : Listener) (entries : list (option Listener))
  : list (option Listener) :=
  if bool_decide (l ∈ Set_values entries) then entries else entries ++ [Some l].

(** [listeners.delete(l)] *)
Definition Set_delete (l : Listener) (entries : list (option Listener))
  : list (option Listener) :=
  List.map (fun e => if bool_decide (e = Some l) then None else e) entries.

(** [emitter.addListener(DEEP_LINK_EVENT, handleNativeDeepLinkEvent)] *)
Definition addListener (st : State) : State :=
  let em := default {| handlers := []; nextId := 0 |} (emitter st) in
  {| emitter := Some {| handlers := handlers em ++ [nextId em];
                        nextId := S (nextId em) |};
     listeners := listeners st;
     nativeSubscription := Some (nextId em);
     native := native_addListener (native st);
     calls := calls st; inflight := inflight st; delivered := delivered st |}.

(** [nativeSubscription.remove()] *)
Definition remove (id : nat) (st : State) : State :=
  match emitter st with
  | Some em =>
      if bool_decide (id ∈ handlers em) then
        {| emitter := Some {| handlers := filter (fun h => h ≠ id) (handlers em);
                              nextId := nextId em |};
           listeners := listeners st;
           nativeSubscription := nativeSubscription st;
           native := native_removeListeners (native st);
           calls := calls st; inflight := inflight st; delivered := delivered st |}
      else st
  | None => st
  end.

Definition set_listeners (entries : list (option Listener)) (st : State) : State :=
  {| emitter := emitter st; listeners := entries;
     nativeSubscription := nativeSubscription st; native := native st;
     calls := calls st; inflight := inflight st; delivered := delivered st |}.

Definition set_nativeSubscription (sub : option nat) (st : State) : State :=
  {| emitter := emitter st; listeners := listeners st;
     nativeSubscription := sub; native := native st;
     calls := calls st; inflight := inflight st; delivered := delivered st |}.

(** [WarpLink.onDeepLink(listener)]; the function it returns is
    [unsubscribe listener] below. *)
Definition onDeepLink (listener : Listener) (st : State) : State :=
  let st1 :=
    match emitter st with
    | Some _ => st
    | None =>
        {| emitter := Some {| handlers := []; nextId := 0 |};
           listeners := listeners st;
           nativeSubscription := nativeSubscription st; native := native st;
           calls := calls st; inflight := inflight st; delivered := delivered st |}
    end in
  let st2 :=
    match nativeSubscription st1 with
    | Some _ => st1
    | None => addListener st1
    end in
  set_listeners (Set_add listener (listeners st2)) st2.

(** The closure returned by [onDeepLink(listener)]. *)
Definition unsubscribe (listener : Listener) (st : State) : State :=
  let st1 := set_listeners (Set_delete listener (listeners st)) st in
  match nativeSubscription st1 with
  | Some id =>
      if Nat.eqb (Set_size (listeners st1)) 0
      then set_nativeSubscription None (remove id st1)
      else st1
  | None => st1
  end.

(** The synchronous part of [resolveAndDispatch(url)]: the call
    [NativeWarpLink.handleDeepLink(url)] is made and awaited. *)
Definition resolveAndDispatch_call (url : string) (st : State) : State :=
  {| emitter := emitter st; listeners := listeners st;
     nativeSubscription := nativeSubscription st; native := native st;
     calls := calls st ++ [CallHandleDeepLink url];
     inflight := inflight st ++ [url];
     delivered := delivered st |}.

Definition handleNativeDeepLinkEvent (url : string) (st : State) : State :=
  resolveAndDispatch_call url st.

(** The emitter delivers the event [{ url }] to every subscription. *)
Definition emit (url : string) (st : State) : State :=
  match emitter st with
  | Some em => fold_left (fun s _ => handleNativeDeepLinkEvent url s) (handlers em) st
  | None => st
  end.

(** Platform capture hands a URL to the native module while the app
    runs: [onNewIntent] always sends the event; [handleIncomingURL]
    sends it when JavaScript is observing and otherwise keeps it in
    [pendingURL]. *)
Definition incomingURL (url : string) (st : State) : State :=
  match native st with
  | AndroidModule _ => emit url st
  | IOSModule p h n =>
      if h then emit url st
      else
        {| emitter := emitter st; listeners := listeners st;
           nativeSubscription := nativeSubscription st;
           native := IOSModule (Some url) h n;
           calls := calls st; inflight := inflight st; delivered := delivered st |}
  end.

(** ** Listeners

    A listener is a JavaScript function, identified by reference
    ([Listener]).  What it does when called: it may call [onDeepLink]
    and unsubscribe functions, then return or throw.  The behaviour may
    depend on the event and on everything that happened so far. *)
Inductive Effect : Type :=
| DoOnDeepLink (l : Listener)
| DoUnsubscribe (l : Listener).

Record Callback : Type := {
  effects : list Effect;
  throws : option Thrown
}.

Variable behaviour : Listener -> DeepLinkEvent -> State -> Callback.

Definition run_effect (st : State) (e : Effect) : State :=
  match e with
  | DoOnDeepLink l => onDeepLink l st
  | DoUnsubscribe l => unsubscribe l st
  end.

Definition record_delivery (l : Listener) (event : DeepLinkEvent) (st : State) : State :=
  {| emitter := emitter st; listeners := listeners st;
     nativeSubscription := nativeSubscription st; native := native st;
     calls := calls st; inflight := inflight st;
     delivered := delivered st ++ [(l, event)] |}.

(** [listener(event)]: the state after the call, and what it threw. *)
Definition call_listener (l : Listener) (event : DeepLinkEvent) (st : State)
  : option Thrown * State :=
  let cb := behaviour l event st in
  (throws cb, fold_left run_effect (effects cb) (record_delivery l event st)).

(** [for (const listener of listeners) { listener(event); }] from slot
    [index] on.  [None]: the loop is still running when the fuel is
    spent.  [Some (None, st)]: the loop ended.  [Some (Some e, st)]: a
    listener threw [e], which ended the loop. *)
Fixpoint for_of_listeners (fuel : nat) (event : DeepLinkEvent) (index : nat) (st : State)
  : option (option Thrown * State) :=
  match fuel with
  | O => None
  | S fuel' =>
      match listeners st !! index with
      | None => Some (None, st)
      | Some None => for_of_listeners fuel' event (S index) st
      | Some (Some l) =>
          match call_listener l event st with
          | (Some e, st') => Some (Some e, st')
          | (None, st') => for_of_listeners fuel' event (S index) st'
          end
      end
  end.

(** The [catch] block of [resolveAndDispatch]: what [mapNativeError]
    throws there leaves the function before any listener is called. *)
Definition resolveAndDispatch_catch (fuel : nat) (error : Thrown) (st : State)
  : option (option Thrown * State) :=
  match mapNativeError error with
  | Success warpLinkError => for_of_listeners fuel (ErrorArm warpLinkError) 0 st
  | Failure thrown => Some (Some thrown, st)
  end.

(** [resolveAndDispatch] from the point where the awaited promise
    settles.  The completion is that of the async function: [Some e]
    is a rejection nobody handles ([void resolveAndDispatch(...)]). *)
Definition resolveAndDispatch_settle (fuel : nat) (outcome : Settlement) (st : State)
  : option (option Thrown * State) :=
  match outcome with
  | Success result =>
      match deserializeDeepLink result with
      | Success (Some deepLink) =>
          match for_of_listeners fuel (DeepLinkArm deepLink) 0 st with
          | None => None
          | Some (None, st') => Some (None, st')
          | Some (Some error, st') => resolveAndDispatch_catch fuel error st'
          end
      | Success None => Some (None, st)
      | Failure error => resolveAndDispatch_catch fuel error st
      end
  | Failure error => resolveAndDispatch_catch fuel error st
  end.

(** The [i]-th resolution in flight settles with [outcome]. *)
Definition settle (fuel : nat) (i : nat) (outcome : Settlement) (st : State)
  : option State :=
  match inflight st !! i with
  | None => Some st
  | Some _ =>
      let st1 :=
        {| emitter := emitter st; listeners := listeners st;
           nativeSubscription := nativeSubscription st; native := native st;
           calls := calls st; inflight := delete i (inflight st);
           delivered := delivered st |} in
      snd <$> resolveAndDispatch_settle fuel outcome st1
  end.

(** ** The single-shot operations *)

Record WarpLinkConfig : Type := {
  apiKey : string;
  apiEndpoint : option string;
  debugLogging : option bool;
  matchWindowHours : option float
}.

Definition log_call (c : NativeCall) (st : State) : State :=
  {| emitter := emitter st; listeners := listeners st;
     nativeSubscription := nativeSubscription st; native := native st;
     calls := calls st ++ [c]; inflight := inflight st;
     delivered := delivered st |}.

Definition optional_field {A : Type} (key : string) (inj : A -> JSValue) (o : option A)
  : list (string * JSValue) :=
  match o with
  | Some a => [(key, inj a)]
  | None => []
  end.

(** [WarpLink.configure(options)]: returns, or throws synchronously.
    The promise of [NativeWarpLink.configure(config)] is not awaited;
    its rejection is rethrown inside a [catch] callback and reaches
    nobody. *)
Definition configure (options : WarpLinkConfig) (st : State)
  : Outcome unit WarpLinkError.t * State :=
  if negb (ToBoolean (JSString (apiKey options)))
     || negb (RegExp_test API_KEY_PATTERN (apiKey options))
  then
    (Failure
       (WarpLinkError.mk ErrorCodes.E_INVALID_API_KEY_FORMAT
          "Invalid API key format. Expected: wl_live_xxx or wl_test_xxx (32 alphanumeric characters after prefix)"),
     st)
  else
    let config :=
      [("apiKey", JSString (apiKey options))]
      ++ optional_field "apiEndpoint" JSString (apiEndpoint options)
      ++ optional_field "debugLogging" JSBoolean (debugLogging options)
      ++ optional_field "matchWindowHours" JSNumber (matchWindowHours options) in
    (Success tt, log_call (CallConfigure config) st).

(** [try { body } catch (error) { throw mapNativeError(error); }] in an
    async function: the promise is fulfilled with what the body
    returns; what the body throws is caught, and the promise rejects
    with the error [mapNativeError] returns, or with what it throws. *)
Definition try_catch {A : Type} (body : Outcome A Thrown) : Outcome A Rejection :=
  match body with
  | Success a => Success a
  | Failure error =>
      match mapNativeError error with
      | Success warpLinkError => Failure (Typed warpLinkError)
      | Failure thrown => Failure (Raw thrown)
      end
  end.

(** [WarpLink.handleDeepLink(url)], given what the native promise
    settles with.  The normalizer runs inside the [try]. *)
Definition handleDeepLink (url : string) (outcome : Settlement) (st : State)
  : Outcome (option WarpLinkDeepLink.t) Rejection * State :=
  (try_catch (and_then outcome deserializeDeepLink),
   log_call (CallHandleDeepLink url) st).

(** [WarpLink.checkDeferredDeepLink()] *)
Definition checkDeferredDeepLink (outcome : Settlement) (st : State)
  : Outcome (option WarpLinkDeepLink.t) Rejection * State :=
  (try_catch (and_then outcome deserializeDeepLink),
   log_call CallCheckDeferredDeepLink st).

(** [WarpLink.isConfigured()] *)
Definition isConfigured (outcome : Outcome bool Thrown) (st : State)
  : Outcome bool Rejection * State :=
  (try_catch outcome, log_call CallIsConfigured st).

(** [WarpLink.getAttributionResult()] *)
Definition getAttributionResult (outcome : Settlement) (st : State)
  : Outcome (option AttributionResult.t) Rejection * State :=
  (try_catch (and_then outcome deserializeAttributionResult),
   log_call CallGetAttributionResult st).

(** [WarpLink.getInitialDeepLink()]; [resolver url] is what
    [NativeWarpLink.handleDeepLink(url)] settles with.  What the inner
    [handleDeepLink] rejects with passes through [mapNativeError] again
    in the outer [catch].  The two awaits are taken in one step: the
    native [getInitialURL] reads and clears its slot in one go, and
    nothing that happens before the resolution settles changes what is
    returned. *)
Definition getInitialDeepLink (resolver : string -> Settlement) (st : State)
  : Outcome (option WarpLinkDeepLink.t) Rejection * State :=
  let '(url, m) := getInitialURL (native st) in
  let st1 :=
    {| emitter := emitter st; listeners := listeners st;
       nativeSubscription := nativeSubscription st; native := m;
       calls := calls st ++ [CallGetInitialURL]; inflight := inflight st;
       delivered := delivered st |} in
  match url with
  | None => (Success None, st1)
  | Some u =>
      match handleDeepLink u (resolver u) st1 with
      | (Success link, st2) => (Success link, st2)
      | (Failure rejection, st2) =>
          (try_catch (Failure (thrown_of rejection)), st2)
      end
  end.

(** ** Everything that can happen to the module

    The calls the application makes, the URLs platform capture hands
    to the native module, and the settling of resolutions in flight. *)
Inductive Op : Type :=
| OpOnDeepLink (l : Listener)
| OpUnsubscribe (l : Listener)
| OpIncomingURL (url : string)
| OpSettle (fuel i : nat) (outcome : Settlement)
| OpConfigure (options : WarpLinkConfig)
| OpHandleDeepLink (url : string) (outcome : Settlement)
| OpCheckDeferredDeepLink (outcome : Settlement)
| OpIsConfigured (outcome : Outcome bool Thrown)
| OpGetAttributionResult (outcome : Settlement)
| OpGetInitialDeepLink (resolver : string -> Settlement).

Definition step (st : State) (op : Op) : option State :=
  match op with
  | OpOnDeepLink l => Some (onDeepLink l st)
  | OpUnsubscribe l => Some (unsubscribe l st)
  | OpIncomingURL url => Some (incomingURL url st)
  | OpSettle fuel i outcome => settle fuel i outcome st
  | OpConfigure options => Some (snd (configure options st))
  | OpHandleDeepLink url outcome => Some (snd (handleDeepLink url outcome st))
  | OpCheckDeferredDeepLink outcome => Some (snd (checkDeferredDeepLink outcome st))
  | OpIsConfigured outcome => Some (snd (isConfigured outcome st))
  | OpGetAttributionResult outcome => Some (snd (getAttributionResult outcome st))
  | OpGetInitialDeepLink resolver => Some (snd (getInitialDeepLink resolver st))
  end.

Fixpoint run (ops : list Op) (st : State) : option State :=
  match ops with
  | [] => Some st
  | op :: ops' =>
      match step st op with
      | Some st' => run ops' st'
      | None => None
      end
  end.

(** The URL the native module holds for [getInitialURL]. *)
Definition captured (m : NativeModule) : option string :=
  match m with
  | AndroidModule initialURL => initialURL
  | IOSModule pendingURL _ _ => pendingURL
  end.

Definition is_android (m : NativeModule) : bool :=
  match m with
  | AndroidModule _ => true
  | IOSModule _ _ _ => false
  end.

(** [op] makes the native module keep a URL for [getInitialURL]: a URL
    arriving at the Swift module while JavaScript is not observing. *)
Definition buffers (st : State) (op : Op) : bool :=
  match op, native st with
  | OpIncomingURL _, IOSModule _ false _ => true
  | _, _ => false
  end.

(** No step of [ops], run from [st], buffers a URL. *)
Fixpoint never_buffers (ops : list Op) (st : State) : Prop :=
  match ops with
  | [] => True
  | op :: ops' =>
      buffers st op = false
      /\ forall st', step st op = Some st' -> never_buffers ops' st'
  end.

(** ** The vocabulary of the properties *)

(** "Is an object": [typeof] says so and the value is not [null]. *)
Definition is_object (v : JSValue) : bool :=
  match v with
  | JSArray _ | JSObject _ => true
  | _ => false
  end.

(** The handlers the emitter currently holds. *)
Definition active_handlers (st : State) : list nat :=
  match emitter st with
  | Some em => handlers em
  | None => []
  end.

(** The well-formedness of the module state: the set holds no listener
    twice, the underlying subscription is present exactly when the set
    is non-empty, and the emitter holds that subscription and no
    other. *)
Record consistent (st : State) : Prop := {
  consistent_NoDup : NoDup (Set_values (listeners st));
  consistent_sub : nativeSubscription st = None <-> Set_values (listeners st) = [];
  consistent_handlers :
    active_handlers st
    = match nativeSubscription st with Some id => [id] | None => [] end
}.

(** The active set a sequence of subscribe and unsubscribe calls
    describes: a subscribe puts its listener at the end unless it is a
    member, an unsubscribe takes its listener out. *)
Definition active_set_step (members : list Listener) (e : Effect) : list Listener :=
  match e with
  | DoOnDeepLink l => if bool_decide (l ∈ members) then members else members ++ [l]
  | DoUnsubscribe l => filter (fun x => x ≠ l) members
  end.

Definition active_set (ops : list Effect) : list Listener :=
  fold_left active_set_step ops [].

(** A listener that only looks at the event: it calls nothing of this
    module and returns. *)
Definition quiet (l : Listener) : Prop :=
  forall event st, behaviour l event st = {| effects := []; throws := None |}.

(** The state after [ls] were handed [event] one after the other. *)
Definition deliver_all (event : DeepLinkEvent) (ls : list Listener) (st : State) : State :=
  {| emitter := emitter st; listeners := listeners st;
     nativeSubscription := nativeSubscription st; native := native st;
     calls := calls st; inflight := inflight st;
     delivered := delivered st ++ List.map (fun l => (l, event)) ls |}.

(** The event a settled resolution turns into, if any: the link of a
    payload that normalizes to one, the typed error of a rejection or
    of a normalizer that threw; none for a payload that normalizes to
    [null], and none when [mapNativeError] throws. *)
Definition event_of (outcome : Settlement) : option DeepLinkEvent :=
  match and_then outcome deserializeDeepLink with
  | Success (Some deepLink) => Some (DeepLinkArm deepLink)
  | Success None => None
  | Failure error =>
      match mapNativeError error with
      | Success warpLinkError => Some (ErrorArm warpLinkError)
      | Failure _ => None
      end
  end.

(** No callback ever calls the unsubscribe function of [l]. *)
Definition never_unsubscribed (l : Listener) : Prop :=
  forall l' event st, DoUnsubscribe l ∉ effects (behaviour l' event st).

(** Callbacks call unsubscribe functions only, never [onDeepLink]. *)
Definition only_unsubscribe : Prop :=
  forall l event st e, e ∈ effects (behaviour l event st) ->
    exists l', e = DoUnsubscribe l'.

(** No callback throws. *)
Definition never_throw : Prop :=
  forall l event st, throws (behaviour l event st) = None.

(** A property of the native module that its listener bookkeeping and
    [getInitialURL] keep. *)
Definition stable (P : NativeModule -> Prop) : Prop :=
  (forall m, P m -> P (native_addListener m))
  /\ (forall m, P m -> P (native_removeListeners m))
  /\ (forall m, P m -> P (snd (getInitialURL m))).

(** The state once the [i]-th resolution in flight has settled and
    before its continuation runs. *)
Definition taken (i : nat) (st : State) : State :=
  {| emitter := emitter st; listeners := listeners st;
     nativeSubscription := nativeSubscription st; native := native st;
     calls := calls st; inflight := delete i (inflight st);
     delivered := delivered st |}.

(** What the Swift module knows about JavaScript listening. *)
Definition observing (m : NativeModule) : option (bool * nat) :=
  match m with
  | AndroidModule _ => None
  | IOSModule _ hasListeners listenerCount => Some (hasListeners, listenerCount)
  end.

(** Two states with the same emitter, set, subscription and native
    listener bookkeeping. *)
Definition same_wiring (st st' : State) : Prop :=
  emitter st' = emitter st
  /\ listeners st' = listeners st
  /\ nativeSubscription st' = nativeSubscription st
  /\ observing (native st') = observing (native st).

(** The Swift module's bookkeeping agrees with the JavaScript side:
    the state is consistent, [hasListeners] is set exactly while the
    underlying subscription exists, and the listener count is the
    number of handlers the emitter holds. *)
Definition ios_in_step (st : State) : Prop :=
  consistent st
  /\ exists pending,
       native st
       = IOSModule pending
           (bool_decide (nativeSubscription st <> None))
           (length (active_handlers st)).

(** A promise that did not reject, or rejected with a [WarpLinkError]
    of one of the eight kinds. *)
Definition typed {A : Type} (r : Outcome A Rejection) : Prop :=
  match r with
  | Success _ => True
  | Failure (Typed e) => In (WarpLinkError.code e) ErrorCodes.values
  | Failure (Raw _) => False
  end.

(** The same, or rejected with the bare TypeError. *)
Definition classified {A : Type} (r : Outcome A Rejection) : Prop :=
  match r with
  | Success _ => True
  | Failure (Typed e) => In (WarpLinkError.code e) ErrorCodes.values
  | Failure (Raw thrown) => thrown = TypeError
  end.

(** What the Kotlin [rejectWithError] is handed: the SDK's
    [WarpLinkError] with its code, or any other [Throwable]. *)
Inductive KotlinThrowable : Type :=
| SdkWarpLinkError (code message : string)
| OtherThrowable (message : string).

(** [rejectWithError]: the [Error] its [promise.reject(code, message,
    error)] reaches JavaScript as. *)
Definition rejectWithError (error : KotlinThrowable) : Thrown :=
  match error with
  | SdkWarpLinkError code message => ErrorInstance message (JSString code)
  | OtherThrowable message => ErrorInstance message (JSString "E_SERVER_ERROR")
  end.

(** The link WarpLink.ts makes of a link the Kotlin module serialized. *)
Definition across_bridge (link : SdkDeepLink.t) : WarpLinkDeepLink.t :=
  {| WarpLinkDeepLink.linkId := SdkDeepLink.linkId link;
     WarpLinkDeepLink.destination := SdkDeepLink.destination link;
     WarpLinkDeepLink.deepLinkUrl := SdkDeepLink.deepLinkUrl link;
     WarpLinkDeepLink.customParams :=
       JSObject (toWritableMap (SdkDeepLink.customParams link));
     WarpLinkDeepLink.isDeferred := SdkDeepLink.isDeferred link;
     WarpLinkDeepLink.matchType :=
       SdkDeepLink.matchType link ≫= fun s => deserializeMatchType (JSString s);
     WarpLinkDeepLink.matchConfidence := SdkDeepLink.matchConfidence link |}.

(** ** Instances for the closed examples *)

(** No example below converts a number to a string; this fixes
    Number::toString for them. *)
Definition decimal_elided : float -> string := fun _ => "0".

(** The message V8 gives the TypeError of a failed conversion. *)
Definition V8_message : string := "Cannot convert object to primitive value".

(** An object with a [toString] property of its own that is a string:
    [String] cannot convert it. *)
Definition own_toString : JSValue := JSObject [("toString", JSString "x")].

(** A cold start on Android: the URL that launched the app is held. *)
Definition android_cold_start : State :=
  initial (AndroidModule (Some "https://aplnk.to/init1")).

(** Listener [0] subscribes listener [2] when it is called. *)
Definition first_adds_third : Listener -> DeepLinkEvent -> State -> Callback :=
  fun l _ _ =>
    match l with
    | O => {| effects := [DoOnDeepLink 2]; throws := None |}
    | _ => {| effects := []; throws := None |}
    end.

(** Listeners that only look at the event. *)
Definition all_quiet : Listener -> DeepLinkEvent -> State -> Callback :=
  fun _ _ _ => {| effects := []; throws := None |}.

(** Listener [0] calls the unsubscribe function of listener [1]. *)
Definition first_removes_second : Listener -> DeepLinkEvent -> State -> Callback :=
  fun l _ _ =>
    match l with
    | O => {| effects := [DoUnsubscribe 1]; throws := None |}
    | _ => {| effects := []; throws := None |}
    end.

(** Listener [0] unsubscribes itself and subscribes again. *)
Definition resubscribes_itself : Listener -> DeepLinkEvent -> State -> Callback :=
  fun l _ _ => {| effects := [DoUnsubscribe l; DoOnDeepLink l]; throws := None |}.

(** Listener [1] throws when handed a link. *)
Definition second_throws : Listener -> DeepLinkEvent -> State -> Callback :=
  fun l event _ =>
    match l, event with
    | 1, DeepLinkArm _ =>
        {| effects := []; throws := Some (ErrorInstance "listener failed" JSUndefined) |}
    | _, _ => {| effects := []; throws := None |}
    end.

(** The payload of the test suite ([MOCK_DEEP_LINK]). *)
Definition MOCK_DEEP_LINK : JSValue :=
  JSObject
    [ ("linkId", JSString "link-dl-1");
      ("destination", JSString "https://example.com");
      ("deepLinkUrl", JSString "myapp://path");
      ("customParams", JSObject [("campaign", JSString "test")]);
      ("isDeferred", JSBoolean false);
      ("matchType", JSString "deterministic");
      ("matchConfidence", JSNumber 1%float) ].

Definition mock_link : WarpLinkDeepLink.t :=
  {| WarpLinkDeepLink.linkId := "link-dl-1";
     WarpLinkDeepLink.destination := "https://example.com";
     WarpLinkDeepLink.deepLinkUrl := Some "myapp://path";
     WarpLinkDeepLink.customParams := JSObject [("campaign", JSString "test")];
     WarpLinkDeepLink.isDeferred := false;
     WarpLinkDeepLink.matchType := Some MatchType.deterministic;
     WarpLinkDeepLink.matchConfidence := Some 1%float |}.

(** Two listeners registered, then one push event in flight. *)
Definition two_listeners : State :=
  onDeepLink 1 (onDeepLink 0 (initial (AndroidModule None))).

Definition two_listeners_one_event : State :=
  emit "https://aplnk.to/abc123" two_listeners.

(** A cold start on iOS: the URL that launched the app is pending. *)
Definition ios_cold_start : State :=
  initial (IOSModule (Some "https://aplnk.to/init1") false 0).

(** The resolver of the test suite: every URL resolves to the mock. *)
Definition mock_resolver : string -> Settlement :=
  fun _ => Success MOCK_DEEP_LINK.

(** A plain object, not an [Error], carrying a message and a code. *)
Definition plain_error_object : JSValue :=
  JSObject [("message", JSString "x"); ("code", JSString "E_NETWORK_ERROR")].

(** The steps between two retrievals: a listener subscribes, a URL
    arrives and is pushed, its resolution settles. *)
Definition warm_steps : list Op :=
  [ OpOnDeepLink 0;
    OpIncomingURL "https://aplnk.to/abc123";
    OpSettle 3 0 (Success MOCK_DEEP_LINK) ].

(** Listener [1] throws whatever it is handed. *)
Definition second_always_throws : Listener -> DeepLinkEvent -> State -> Callback :=
  fun l _ _ =>
    match l with
    | 1 => {| effects := []; throws := Some (NonError (JSString "boom")) |}
    | _ => {| effects := []; throws := None |}
    end.

(** Two listeners and two push events in flight. *)
Definition two_in_flight : State :=
  emit "https://aplnk.to/def456" two_listeners_one_event.

(** A rejection of the resolver, as in the test suite. *)
Definition network_error : Thrown :=
  ErrorInstance "Network error" (JSString "E_NETWORK_ERROR").

Definition sample_options : WarpLinkConfig :=
  {| apiKey := "wl_live_abcdefghijklmnopqrstuvwxyz012345";
     apiEndpoint := Some "https://api.example.com";
     debugLogging := None;
     matchWindowHours := None |}.

(** * Properties *)

(** ** Response normalizer *)

Lemma object_guard (raw : JSValue) :
  eq_null raw || negb (String.eqb (typeof raw) "object") = negb (is_object raw).
Proof. by destruct raw. Qed.

Lemma deserializeMatchType_None (value : JSValue) :
  deserializeMatchType value = None <->
  value <> JSString "deterministic" /\ value <> JSString "probabilistic".
Proof.
  unfold deserializeMatchType, strict_eq_string.
  destruct value as [| |b|n|s|elems|props]; try (split; [split|]; done).
  destruct (String.eqb_spec s "deterministic") as [->|Hd].
  { split; [done | by intros [? _]]. }
  destruct (String.eqb_spec s "probabilistic") as [->|Hp].
  { split; [done | by intros [_ ?]]. }
  split; [|done]. intros _. split; congruence.
Qed.

Lemma deserializeMatchType_Some (value : JSValue) (m : MatchType.t) :
  deserializeMatchType value = Some m <-> value = JSString (MatchType.to_string m).
Proof.
  unfold deserializeMatchType, strict_eq_string.
  destruct value as [| |b|n|s|elems|props]; try (split; [done | by destruct m]).
  destruct (String.eqb_spec s "deterministic") as [->|Hd].
  { destruct m; split; intros H; try done; by inversion H. }
  destruct (String.eqb_spec s "probabilistic") as [->|Hp].
  { destruct m; split; intros H; try done; by inversion H. }
  split; [done|]. destruct m; intros H; inversion H; by subst.
Qed.

(** *** What [String] converts *)

Lemma ToString_not_object (v : JSValue) :
  is_object v = false -> exists s, ToString v = Success s.
Proof. destruct v; intros H; try done; simpl; eauto. Qed.

Lemma ToString_string (s : string) : ToString (JSString s) = Success s.
Proof. done. Qed.

Lemma ToString_plain_object (props : list (string * JSValue)) :
  assoc "toString" props = None -> ToString (JSObject props) = Success "[object Object]".
Proof. intros H. simpl. by rewrite H. Qed.

Lemma ToString_own_toString (props : list (string * JSValue)) (v : JSValue) :
  assoc "toString" props = Some v -> ToString (JSObject props) = Failure TypeError.
Proof. intros H. simpl. by rewrite H. Qed.

Lemma ToString_nullish (v : JSValue) (s : string) :
  ToString v = Success s ->
  ToString (nullish_coalesce v (JSString "")) = Success (if eq_null v then "" else s).
Proof. intros H. unfold nullish_coalesce. by destruct (eq_null v). Qed.

(** The three conversions of [deserializeDeepLink] done, the link is
    what the object literal says. *)
Lemma deserializeDeepLink_converted (raw : JSValue) (a b c : string) :
  is_object raw = true ->
  ToString (get raw "linkId") = Success a ->
  ToString (get raw "destination") = Success b ->
  ToString (get raw "deepLinkUrl") = Success c ->
  deserializeDeepLink raw
  = Success (Some {|
      WarpLinkDeepLink.linkId := if eq_null (get raw "linkId") then "" else a;
      WarpLinkDeepLink.destination := if eq_null (get raw "destination") then "" else b;
      WarpLinkDeepLink.deepLinkUrl :=
        if eq_null (get raw "deepLinkUrl") then None else Some c;
      WarpLinkDeepLink.customParams :=
        if is_object (get raw "customParams") then get raw "customParams"
        else JSObject [];
      WarpLinkDeepLink.isDeferred := ToBoolean (get raw "isDeferred");
      WarpLinkDeepLink.matchType := deserializeMatchType (get raw "matchType");
      WarpLinkDeepLink.matchConfidence :=
        match get raw "matchConfidence" with
        | JSNumber n => Some n
        | _ => None
        end |}).
Proof.
  intros Hobj Ha Hb Hc. unfold deserializeDeepLink.
  rewrite object_guard, Hobj. cbn [negb].
  rewrite (ToString_nullish _ _ Ha), (ToString_nullish _ _ Hb). cbn [and_then].
  rewrite Hc.
  assert (negb (eq_null (get raw "customParams"))
          && String.eqb (typeof (get raw "customParams")) "object"
          = is_object (get raw "customParams")) as ->
    by by destruct (get raw "customParams").
  by destruct (eq_null (get raw "deepLinkUrl")).
Qed.

(** On an object, [deserializeDeepLink] returns a link or throws. *)
Lemma deserializeDeepLink_object (raw : JSValue) :
  is_object raw = true -> deserializeDeepLink raw <> Success None.
Proof.
  intros Hobj. unfold deserializeDeepLink. rewrite object_guard, Hobj. cbn [negb].
  destruct (ToString (nullish_coalesce (get raw "linkId") (JSString ""))); [|done].
  cbn [and_then].
  destruct (ToString (nullish_coalesce (get raw "destination") (JSString ""))); [|done].
  cbn [and_then].
  destruct (negb (eq_null (get raw "deepLinkUrl"))); [|done].
  by destruct (ToString (get raw "deepLinkUrl")).
Qed.

(** C5, as it holds.  [deserializeDeepLink] returns [null] exactly on
    inputs that are not objects.  On an object whose [linkId],
    [destination] and [deepLinkUrl] [String] converts (it converts
    every value that is not an object: a missing or null one, a
    string, a number, a boolean) it returns a link with every field
    filled: the empty string for a missing or null [linkId] or
    [destination] and [String(value)] for a present one, [null] for a
    missing or null [deepLinkUrl] and [String(value)] for a present
    one, the empty mapping for a [customParams] that is missing, null
    or not an object, [null] for a [matchType] that is neither literal
    and for a [matchConfidence] that is not a number. *)
Theorem deserializeDeepLink_complete (raw : JSValue) :
  (deserializeDeepLink raw = Success None <-> is_object raw = false)
  /\ (forall a b c,
      is_object raw = true ->
      ToString (get raw "linkId") = Success a ->
      ToString (get raw "destination") = Success b ->
      ToString (get raw "deepLinkUrl") = Success c ->
      exists link,
        deserializeDeepLink raw = Success (Some link)
        /\ WarpLinkDeepLink.linkId link
           = (if eq_null (get raw "linkId") then "" else a)
        /\ WarpLinkDeepLink.destination link
           = (if eq_null (get raw "destination") then "" else b)
        /\ WarpLinkDeepLink.deepLinkUrl link
           = (if eq_null (get raw "deepLinkUrl") then None else Some c)
        /\ WarpLinkDeepLink.customParams link
           = (if is_object (get raw "customParams") then get raw "customParams"
              else JSObject [])
        /\ WarpLinkDeepLink.isDeferred link = ToBoolean (get raw "isDeferred")
        /\ (get raw "matchType" <> JSString "deterministic" ->
            get raw "matchType" <> JSString "probabilistic" ->
            WarpLinkDeepLink.matchType link = None)
        /\ (forall m, get raw "matchType" = JSString (MatchType.to_string m) ->
            WarpLinkDeepLink.matchType link = Some m)
        /\ (typeof (get raw "matchConfidence") <> "number" ->
            WarpLinkDeepLink.matchConfidence link = None)
        /\ (forall n, get raw "matchConfidence" = JSNumber n ->
            WarpLinkDeepLink.matchConfidence link = Some n))
  /\ (forall v, is_object v = false -> exists s, ToString v = Success s)
  /\ (forall s, ToString (JSString s) = Success s).
Proof.
  split; [|split; [|split; [apply ToString_not_object | apply ToString_string]]].
  - split.
    + intros H. destruct (is_object raw) eqn:Hobj; [|done].
      by destruct (deserializeDeepLink_object raw Hobj).
    + intros Hobj. unfold deserializeDeepLink. by rewrite object_guard, Hobj.
  - intros a b c Hobj Ha Hb Hc.
    eexists. split; [by apply deserializeDeepLink_converted|]. simpl.
    repeat split.
    + intros Hd Hp. by apply deserializeMatchType_None.
    + intros m Hm. by apply deserializeMatchType_Some.
    + by destruct (get raw "matchConfidence").
    + by intros n ->.
Qed.

(** C6. [deserializeAttributionResult] returns [null] exactly when the
    input is not an object, or its [matchType] is neither literal, or
    its [matchConfidence] is not a number; a result it does return
    carries the input's valid [matchType] and numeric
    [matchConfidence]. *)
Theorem deserializeAttributionResult_strict (raw : JSValue) :
  (deserializeAttributionResult raw = Success None <->
     is_object raw = false
     \/ (get raw "matchType" <> JSString "deterministic"
         /\ get raw "matchType" <> JSString "probabilistic")
     \/ typeof (get raw "matchConfidence") <> "number")
  /\ (forall result, deserializeAttributionResult raw = Success (Some result) ->
        is_object raw = true
        /\ get raw "matchType"
           = JSString (MatchType.to_string (AttributionResult.matchType result))
        /\ get raw "matchConfidence"
           = JSNumber (AttributionResult.matchConfidence result)).
Proof.
  unfold deserializeAttributionResult. rewrite object_guard.
  destruct (is_object raw) eqn:Hobj; cbn [negb].
  2: { split; [split; [by left | done] | done]. }
  destruct (deserializeMatchType (get raw "matchType")) as [m|] eqn:Hm.
  - apply deserializeMatchType_Some in Hm.
    destruct (get raw "matchConfidence") as [| |b|n|s|elems|props] eqn:Hc;
      try (split; [split; [intros _; right; right; done | done] | done]).
    destruct (ToString (nullish_coalesce (get raw "linkId") (JSString "")))
      as [linkId|thrown]; cbn [and_then].
    + split.
      * split; [done|]. intros [?|[[Hd Hp]|Hn]]; [done| |done].
        rewrite Hm in Hd, Hp. by destruct m.
      * intros result [= <-]. simpl. by rewrite Hm.
    + split; [|done].
      split; [done|]. intros [?|[[Hd Hp]|Hn]]; [done| |done].
      rewrite Hm in Hd, Hp. by destruct m.
  - apply deserializeMatchType_None in Hm.
    split; [split; [intros _; right; by left | done] | done].
Qed.

(** C7, as it holds.  For a payload whose [matchConfidence] is the
    number [0.0]: a link that is returned has that [0.0] as its
    [matchConfidence], not [null]; [null] is never returned; and a link
    is returned whenever [String] converts [linkId], [destination] and
    [deepLinkUrl]. *)
Theorem deserializeDeepLink_zero_confidence (raw : JSValue) :
  is_object raw = true ->
  get raw "matchConfidence" = JSNumber 0%float ->
  (forall link, deserializeDeepLink raw = Success (Some link) ->
     WarpLinkDeepLink.matchConfidence link = Some 0%float
     /\ WarpLinkDeepLink.matchConfidence link <> None)
  /\ deserializeDeepLink raw <> Success None
  /\ (forall a b c,
        ToString (get raw "linkId") = Success a ->
        ToString (get raw "destination") = Success b ->
        ToString (get raw "deepLinkUrl") = Success c ->
        exists link,
          deserializeDeepLink raw = Success (Some link)
          /\ WarpLinkDeepLink.matchConfidence link = Some 0%float).
Proof.
  intros Hobj Hc. split; [|split; [by apply deserializeDeepLink_object|]].
  - intros link. unfold deserializeDeepLink. rewrite object_guard, Hobj. cbn [negb].
    destruct (ToString (nullish_coalesce (get raw "linkId") (JSString ""))); [|done].
    cbn [and_then].
    destruct (ToString (nullish_coalesce (get raw "destination") (JSString "")));
      [|done].
    cbn [and_then].
    destruct (if negb (eq_null (get raw "deepLinkUrl"))
              then and_then (ToString (get raw "deepLinkUrl")) (fun s => Success (Some s))
              else Success None); [|done].
    cbn [and_then]. intros [= <-]. simpl. by rewrite Hc.
  - intros a b c Ha Hb Hu. eexists.
    split; [by apply deserializeDeepLink_converted|]. simpl. by rewrite Hc.
Qed.

(** ** Typed error mapping *)

Lemma isErrorCode_spec (code : JSValue) :
  isErrorCode code = true <-> exists c, code = JSString c /\ In c ErrorCodes.values.
Proof.
  unfold isErrorCode. rewrite existsb_exists. split.
  - intros (c & Hin & Heq). destruct code; try done. simpl in Heq.
    apply String.eqb_eq in Heq. subst. eauto.
  - intros (c & -> & Hin). exists c. split; [done|]. simpl. apply String.eqb_refl.
Qed.

Lemma known_code_truthy (c : string) :
  In c ErrorCodes.values -> ToBoolean (JSString c) = true.
Proof.
  simpl. intros H. destruct (String.eqb_spec c ""); [|done]. subst.
  repeat (destruct H as [H|H]; [done|]). done.
Qed.

(** An [Error] instance is always mapped. *)
Lemma mapNativeError_ErrorInstance (message : string) (code : JSValue) :
  mapNativeError (ErrorInstance message code)
  = Success
      (WarpLinkError.mk
         (if ToBoolean code && isErrorCode code then as_string code
          else ErrorCodes.E_SERVER_ERROR)
         message).
Proof. done. Qed.

Lemma mapNativeError_code_known (error : Thrown) (e : WarpLinkError.t) :
  mapNativeError error = Success e -> In (WarpLinkError.code e) ErrorCodes.values.
Proof.
  destruct error as [message code|v]; simpl.
  - intros [= <-]. simpl. destruct (ToBoolean code && isErrorCode code) eqn:H.
    + apply andb_true_iff in H as [_ H].
      apply isErrorCode_spec in H as (c & -> & Hin). done.
    + simpl. tauto.
  - destruct (ToString v); [|done]. cbn [and_then]. intros [= <-]. simpl. tauto.
Qed.

(** C4, as it holds.  An error [mapNativeError] returns has one of the
    eight kinds.  For an [Error] instance it returns one: the message
    is kept verbatim and the kind is its [code] when that is one of the
    eight, [E_SERVER_ERROR] otherwise.  For any other rejected value
    that [String] converts (every value that is not an object; a plain
    object without a [toString] of its own, as the text
    [[object Object]]) the kind is [E_SERVER_ERROR] and the message is
    [String(value)]. *)
Theorem mapNativeError_spec (error : Thrown) :
  (forall e, mapNativeError error = Success e ->
     In (WarpLinkError.code e) ErrorCodes.values)
  /\ match error with
     | ErrorInstance message code =>
         exists e,
           mapNativeError error = Success e
           /\ WarpLinkError.message e = message
           /\ (forall c, code = JSString c -> In c ErrorCodes.values ->
               WarpLinkError.code e = c)
           /\ ((forall c, code = JSString c -> ~ In c ErrorCodes.values) ->
               WarpLinkError.code e = ErrorCodes.E_SERVER_ERROR)
     | NonError v =>
         forall s, ToString v = Success s ->
           mapNativeError error
           = Success (WarpLinkError.mk ErrorCodes.E_SERVER_ERROR s)
     end
  /\ (forall v, is_object v = false -> exists s, ToString v = Success s)
  /\ (forall props, assoc "toString" props = None ->
        ToString (JSObject props) = Success "[object Object]")
  /\ mapNativeError (ErrorInstance "x" (JSString "E_NETWORK_ERROR"))
     = Success (WarpLinkError.mk ErrorCodes.E_NETWORK_ERROR "x")
  /\ (forall message,
        mapNativeError (ErrorInstance message JSUndefined)
        = Success (WarpLinkError.mk ErrorCodes.E_SERVER_ERROR message)).
Proof.
  split; [apply mapNativeError_code_known|].
  split;
    [|split; [apply ToString_not_object
             |split; [apply ToString_plain_object | by split]]].
  destruct error as [message code|v].
  - eexists. split; [apply mapNativeError_ErrorInstance|].
    split; [done|]. split.
    + intros c -> Hin. simpl.
      assert (isErrorCode (JSString c) = true) as ->
        by (apply isErrorCode_spec; eauto).
      pose proof (known_code_truthy c Hin) as Ht. simpl in Ht. by rewrite Ht.
    + intros Hnot. simpl.
      destruct (isErrorCode code) eqn:H.
      * apply isErrorCode_spec in H as (c & -> & Hin). by destruct (Hnot c).
      * by rewrite andb_false_r.
  - intros s Hs. simpl. by rewrite Hs.
Qed.

(** A [WarpLinkError] that [mapNativeError] returned, thrown again, is
    mapped to itself. *)
Lemma mapNativeError_idempotent (error : Thrown) (e : WarpLinkError.t) :
  mapNativeError error = Success e ->
  mapNativeError (throw_WarpLinkError e) = Success e.
Proof.
  intros He. pose proof (mapNativeError_code_known error e He) as Hin.
  destruct e as [c m]. simpl in *.
  assert (isErrorCode (JSString c) = true) as ->
    by (apply isErrorCode_spec; eauto).
  pose proof (known_code_truthy c Hin) as Ht. simpl in Ht. by rewrite Ht.
Qed.

(** The TypeError of a failed conversion is an [Error] without a code:
    caught and mapped, it is a server error with the engine's message. *)
Lemma mapNativeError_TypeError :
  mapNativeError TypeError
  = Success (WarpLinkError.mk ErrorCodes.E_SERVER_ERROR TypeError_message).
Proof. done. Qed.

(** Whatever [String] throws is that TypeError. *)
Lemma ToString_throws (v : JSValue) (thrown : Thrown) :
  ToString v = Failure thrown -> thrown = TypeError.
Proof.
  revert thrown.
  induction v as [| |b|n|s|elems IH|props] using JSValue_nested_ind;
    intros thrown; try done.
  - cbn [ToString].
    match goal with
    | |- and_then (?items elems) _ = _ -> _ =>
        assert (items elems = Failure thrown -> thrown = TypeError) as Hitems
    end.
    { induction IH as [|e es' He _ IHes]; [done|].
      destruct (eq_null e) eqn:Hnull; cbn [and_then].
      - match goal with
        | |- and_then ?rest _ = _ -> _ => destruct rest eqn:Hrest
        end; [done|].
        cbn [and_then]. intros [= <-]. by apply IHes.
      - destruct (ToString e) eqn:Hs; cbn [and_then].
        + match goal with
          | |- and_then ?rest _ = _ -> _ => destruct rest eqn:Hrest
          end; [done|].
          cbn [and_then]. intros [= <-]. by apply IHes.
        + intros [= <-]. by apply He. }
    match goal with
    | |- and_then ?r _ = _ -> _ => destruct r eqn:Hr
    end; [done|].
    cbn [and_then]. intros [= <-]. by apply Hitems.
  - simpl. destruct (assoc "toString" props); [|done]. by intros [= <-].
Qed.

(** The normalizers throw nothing else. *)
Lemma deserializeDeepLink_throws (raw : JSValue) (thrown : Thrown) :
  deserializeDeepLink raw = Failure thrown -> thrown = TypeError.
Proof.
  unfold deserializeDeepLink.
  destruct (eq_null raw || negb (String.eqb (typeof raw) "object")); [done|].
  destruct (ToString (nullish_coalesce (get raw "linkId") (JSString ""))) eqn:H1;
    cbn [and_then]; [|intros [= <-]; by eapply ToString_throws].
  destruct (ToString (nullish_coalesce (get raw "destination") (JSString ""))) eqn:H2;
    cbn [and_then]; [|intros [= <-]; by eapply ToString_throws].
  destruct (negb (eq_null (get raw "deepLinkUrl"))); [|done].
  destruct (ToString (get raw "deepLinkUrl")) eqn:H3;
    cbn [and_then]; [done|intros [= <-]; by eapply ToString_throws].
Qed.

Lemma deserializeAttributionResult_throws (raw : JSValue) (thrown : Thrown) :
  deserializeAttributionResult raw = Failure thrown -> thrown = TypeError.
Proof.
  unfold deserializeAttributionResult.
  destruct (eq_null raw || negb (String.eqb (typeof raw) "object")); [done|].
  destruct (deserializeMatchType (get raw "matchType")); [|done].
  destruct (get raw "matchConfidence"); try done.
  destruct (ToString (nullish_coalesce (get raw "linkId") (JSString ""))) eqn:H1;
    cbn [and_then]; [done|intros [= <-]; by eapply ToString_throws].
Qed.

Lemma mapNativeError_throws (error thrown : Thrown) :
  mapNativeError error = Failure thrown -> thrown = TypeError.
Proof.
  destruct error as [message code|v]; [done|]. simpl.
  destruct (ToString v) eqn:H; cbn [and_then]; [done|].
  intros [= <-]. by eapply ToString_throws.
Qed.

(** ** The key pattern *)

Lemma nullable_matches (r : regex) : nullable r = true <-> matches r [].
Proof.
  induction r as [| |c|ranges|r1 IH1 r2 IH2|r1 IH1 r2 IH2]; simpl.
  - done.
  - done.
  - done.
  - split; [done|]. by intros (c & ? & _).
  - rewrite andb_true_iff, IH1, IH2. split.
    + intros [H1 H2]. by exists [], [].
    + intros (cs1 & cs2 & Heq & H1 & H2).
      symmetry in Heq. apply app_eq_nil in Heq as [-> ->]. done.
  - rewrite orb_true_iff, IH1, IH2. done.
Qed.

Lemma deriv_matches (c : ascii) (r : regex) (cs : list ascii) :
  matches (deriv c r) cs <-> matches r (c :: cs).
Proof.
  revert cs.
  induction r as [| |c'|ranges|r1 IH1 r2 IH2|r1 IH1 r2 IH2]; intros cs; simpl.
  - done.
  - done.
  - destruct (Ascii.eqb_spec c c') as [->|Hne]; simpl.
    + split; [by intros -> | by intros [= ->]].
    + split; [done | intros [= ? ?]; done].
  - destruct (in_class c ranges) eqn:Hc; simpl.
    + split; [intros ->; eauto | by intros (c0 & [= _ ->] & _)].
    + split; [done | intros (c0 & [= <- _] & H); congruence].
  - assert (matches (Cat (deriv c r1) r2) cs <->
            exists cs1 cs2, cs = cs1 ++ cs2 /\ matches r1 (c :: cs1) /\ matches r2 cs2)
      as Hcat.
    { simpl. split; intros (cs1 & cs2 & ? & H1 & H2); exists cs1, cs2;
        (split; [done|]); split; try done; by apply IH1. }
    destruct (nullable r1) eqn:Hn.
    + change (matches (Cat (deriv c r1) r2) cs \/ matches (deriv c r2) cs
              <-> exists cs1 cs2, c :: cs = cs1 ++ cs2 /\ matches r1 cs1 /\ matches r2 cs2).
      rewrite Hcat, IH2. split.
      * intros [(cs1 & cs2 & -> & H1 & H2)|H2].
        -- by exists (c :: cs1), cs2.
        -- exists [], (c :: cs). split; [done|]. split; [|done].
           by apply nullable_matches.
      * intros (cs1 & cs2 & Heq & H1 & H2). destruct cs1 as [|c1 cs1].
        -- simpl in Heq. subst cs2. by right.
        -- injection Heq as <- ->. left. by exists cs1, cs2.
    + rewrite Hcat. split.
      * intros (cs1 & cs2 & -> & H1 & H2). by exists (c :: cs1), cs2.
      * intros (cs1 & cs2 & Heq & H1 & H2). destruct cs1 as [|c1 cs1].
        -- apply nullable_matches in H1. congruence.
        -- injection Heq as <- ->. by exists cs1, cs2.
  - by rewrite IH1, IH2.
Qed.

Lemma accepts_matches (r : regex) (cs : list ascii) :
  accepts r cs = true <-> matches r cs.
Proof.
  revert r. induction cs as [|c cs IH]; intros r; simpl.
  - apply nullable_matches.
  - rewrite IH. apply deriv_matches.
Qed.

Lemma matches_literal (l cs : list ascii) : matches (literal l) cs <-> cs = l.
Proof.
  revert cs. induction l as [|c l IH]; intros cs; simpl; [done|].
  split.
  - intros (cs1 & cs2 & -> & -> & H2). apply IH in H2. by subst.
  - intros ->. exists [c], l. split; [done|]. split; [done|]. by apply IH.
Qed.

Lemma matches_times_class (n : nat) (ranges : list (ascii * ascii)) (cs : list ascii) :
  matches (times n (Class ranges)) cs
  <-> length cs = n /\ Forall (fun c => in_class c ranges = true) cs.
Proof.
  revert cs. induction n as [|n IH]; intros cs; simpl.
  - split; [by intros -> | intros [H _]; by destruct cs].
  - split.
    + intros (cs1 & cs2 & -> & (c & -> & Hc) & H2). apply IH in H2 as [<- H2].
      split; [done|]. by constructor.
    + intros [Hlen Hall]. destruct cs as [|c cs]; [done|].
      inversion Hall; subst. exists [c], cs. split; [done|]. split; [eauto|].
      apply IH. split; [|done]. simpl in Hlen. lia.
Qed.

Lemma in_class_alnum (c : ascii) :
  in_class c alnum_ranges = true <-> alphanumeric c.
Proof.
  unfold in_class, alnum_ranges, alphanumeric, in_range.
  cbn [existsb fst snd]. rewrite orb_false_r.
  rewrite !orb_true_iff, !andb_true_iff, !Nat.leb_le.
  change (nat_of_ascii "a") with 97. change (nat_of_ascii "z") with 122.
  change (nat_of_ascii "A") with 65. change (nat_of_ascii "Z") with 90.
  change (nat_of_ascii "0") with 48. change (nat_of_ascii "9") with 57.
  cbv zeta. tauto.
Qed.

Lemma list_ascii_of_string_app (s1 s2 : string) :
  list_ascii_of_string (s1 +:+ s2) = list_ascii_of_string s1 ++ list_ascii_of_string s2.
Proof. induction s1 as [|c s1 IH]; simpl; [done | by rewrite IH]. Qed.

Lemma string_of_list_ascii_app (l1 l2 : list ascii) :
  string_of_list_ascii (l1 ++ l2) = string_of_list_ascii l1 +:+ string_of_list_ascii l2.
Proof. induction l1 as [|c l1 IH]; simpl; [done | by rewrite IH]. Qed.

Lemma list_ascii_of_string_length (s : string) :
  length (list_ascii_of_string s) = String.length s.
Proof. induction s as [|c s IH]; simpl; [done | by rewrite IH]. Qed.

(** The pattern accepts exactly the well-formed keys. *)
Lemma API_KEY_PATTERN_spec (key : string) :
  RegExp_test API_KEY_PATTERN key = true <-> well_formed_key key.
Proof.
  unfold RegExp_test. rewrite accepts_matches. unfold API_KEY_PATTERN, well_formed_key.
  split.
  - intros (p & rest1 & Hkey & Hp & env & rest2 & -> & Henv & u & suffix & -> & Hu & Hs).
    apply matches_literal in Hp. simpl in Hu. subst.
    apply matches_times_class in Hs as [Hlen Hall].
    exists (string_of_list_ascii env), (string_of_list_ascii suffix).
    split.
    { destruct Henv as [H|H]; apply matches_literal in H; subst; [by left | by right]. }
    split.
    { apply (f_equal string_of_list_ascii) in Hkey.
      rewrite string_of_list_ascii_of_string in Hkey. rewrite Hkey.
      by rewrite !string_of_list_ascii_app. }
    rewrite <- list_ascii_of_string_length, list_ascii_of_string_of_list_ascii.
    split; [done|].
    eapply Forall_impl; [exact Hall|]. intros c Hc. by apply in_class_alnum.
  - intros (env & suffix & Henv & -> & Hlen & Hall).
    rewrite !list_ascii_of_string_app.
    exists (list_ascii_of_string "wl_"), (list_ascii_of_string env ++
      list_ascii_of_string "_" ++ list_ascii_of_string suffix).
    split; [done|]. split; [by apply matches_literal|].
    exists (list_ascii_of_string env), (list_ascii_of_string "_" ++
      list_ascii_of_string suffix).
    split; [done|]. split.
    { destruct Henv as [->| ->]; [left | right]; by apply matches_literal. }
    exists [("_")%char], (list_ascii_of_string suffix).
    split; [done|]. split; [done|].
    apply matches_times_class. rewrite list_ascii_of_string_length.
    split; [done|].
    eapply Forall_impl; [exact Hall|]. intros c Hc. by apply in_class_alnum.
Qed.

(** C3. [configure] throws [E_INVALID_API_KEY_FORMAT] exactly when the
    key is not [wl_live_] or [wl_test_] followed by 32 alphanumeric
    characters, and then the state is untouched: no call has reached the
    native module.  On a well-formed key it returns, having made the one
    call [NativeWarpLink.configure] with that key. *)
Theorem configure_validates_key (options : WarpLinkConfig) (st : State) :
  ((exists e, fst (configure options st) = Failure e)
     <-> ~ well_formed_key (apiKey options))
  /\ (forall e, fst (configure options st) = Failure e ->
        WarpLinkError.code e = ErrorCodes.E_INVALID_API_KEY_FORMAT
        /\ snd (configure options st) = st)
  /\ (well_formed_key (apiKey options) ->
        fst (configure options st) = Success tt
        /\ exists config,
             snd (configure options st) = log_call (CallConfigure config) st
             /\ calls (snd (configure options st))
                = calls st ++ [CallConfigure config]
             /\ get (JSObject config) "apiKey" = JSString (apiKey options)).
Proof.
  unfold configure.
  destruct (RegExp_test API_KEY_PATTERN (apiKey options)) eqn:Hre.
  - pose proof (proj1 (API_KEY_PATTERN_spec _) Hre) as Hwf.
    assert (ToBoolean (JSString (apiKey options)) = true) as ->.
    { simpl. destruct (String.eqb_spec (apiKey options) "") as [He|]; [|done].
      rewrite He in Hre. done. }
    simpl. split; [|split].
    + split; [by intros [e ?] | done].
    + done.
    + intros _. split; [done|]. eexists. split; [reflexivity|]. split; [done|].
      done.
  - assert (~ well_formed_key (apiKey options)) as Hwf.
    { intros H. apply API_KEY_PATTERN_spec in H. congruence. }
    rewrite orb_true_r. simpl. split; [|split].
    + split; [done | eauto].
    + by intros e [= <-].
    + done.
Qed.

(** ** The listener set and the underlying subscription *)

Lemma Set_values_app (xs ys : list (option Listener)) :
  Set_values (xs ++ ys) = Set_values xs ++ Set_values ys.
Proof. induction xs as [|[x|] xs IH]; simpl; [done| |done]. by rewrite IH. Qed.

Lemma Set_values_add (l : Listener) (entries : list (option Listener)) :
  Set_values (Set_add l entries)
  = if bool_decide (l ∈ Set_values entries) then Set_values entries
    else Set_values entries ++ [l].
Proof.
  unfold Set_add. case_bool_decide; [done|]. by rewrite Set_values_app.
Qed.

Lemma Set_values_delete (l : Listener) (entries : list (option Listener)) :
  Set_values (Set_delete l entries) = filter (fun x => x ≠ l) (Set_values entries).
Proof.
  unfold Set_delete.
  induction entries as [|[x|] entries IH]; simpl; [done| |done].
  case_bool_decide as Hx.
  - injection Hx as ->. rewrite IH.
    rewrite filter_cons_False; [done | by intros ?].
  - simpl. rewrite IH. rewrite filter_cons_True; [done | congruence].
Qed.

Lemma elem_of_Set_values (l : Listener) (entries : list (option Listener)) :
  l ∈ Set_values entries <-> exists i, entries !! i = Some (Some l).
Proof.
  induction entries as [|[x|] entries IH]; simpl.
  - split; [by intros ?%not_elem_of_nil | by intros [i ?]].
  - rewrite elem_of_cons, IH. split.
    + intros [->|[i Hi]]; [by exists 0 | by exists (S i)].
    + intros [[|i] Hi]; [left; by injection Hi | right; by exists i].
  - rewrite IH. split.
    + intros [i Hi]. by exists (S i).
    + intros [[|i] Hi]; [done | by exists i].
Qed.

Lemma consistent_initial (m : NativeModule) : consistent (initial m).
Proof. split; simpl; [constructor | done | done]. Qed.

Lemma listeners_onDeepLink (l : Listener) (st : State) :
  listeners (onDeepLink l st) = Set_add l (listeners st).
Proof.
  unfold onDeepLink.
  destruct (emitter st); simpl; destruct (nativeSubscription st); done.
Qed.

Lemma listeners_remove (id : nat) (st : State) :
  listeners (remove id st) = listeners st.
Proof.
  unfold remove. destruct (emitter st); [|done]. by case_bool_decide.
Qed.

Lemma listeners_unsubscribe (l : Listener) (st : State) :
  listeners (unsubscribe l st) = Set_delete l (listeners st).
Proof.
  unfold unsubscribe. simpl. destruct (nativeSubscription st); [|done].
  destruct (Nat.eqb _ 0); [|done]. simpl. by rewrite listeners_remove.
Qed.

Lemma consistent_onDeepLink (l : Listener) (st : State) :
  consistent st -> consistent (onDeepLink l st).
Proof.
  intros [Hnd Hsub Hh].
  assert (NoDup (Set_values (Set_add l (listeners st)))) as Hnd'.
  { rewrite Set_values_add. case_bool_decide; [done|].
    apply NoDup_app. split; [done|]. split; [|apply NoDup_singleton].
    intros x Hx ->%list_elem_of_singleton. done. }
  assert (Set_values (Set_add l (listeners st)) <> []) as Hne.
  { rewrite Set_values_add. case_bool_decide as Hin.
    - intros E. rewrite E in Hin. by apply not_elem_of_nil in Hin.
    - by intros ?%app_eq_nil%proj2. }
  unfold active_handlers in Hh. unfold onDeepLink.
  destruct (emitter st) as [em|] eqn:Hem; simpl;
    destruct (nativeSubscription st) as [id|] eqn:Hns; simpl.
  - split; simpl; [done | by rewrite Hns | unfold active_handlers; simpl;
      by rewrite Hem, Hns].
  - unfold addListener. rewrite Hem. simpl.
    split; simpl; [done | done |].
    unfold active_handlers. simpl. by rewrite Hh.
  - done.
  - split; simpl; [done | done | done].
Qed.

Lemma consistent_unsubscribe (l : Listener) (st : State) :
  consistent st -> consistent (unsubscribe l st).
Proof.
  intros [Hnd Hsub Hh].
  assert (NoDup (Set_values (Set_delete l (listeners st)))) as Hnd'.
  { rewrite Set_values_delete. by apply NoDup_filter. }
  unfold active_handlers in Hh. unfold unsubscribe. simpl.
  destruct (nativeSubscription st) as [id|] eqn:Hns.
  - unfold Set_size.
    destruct (Set_values (Set_delete l (listeners st))) as [|x xs] eqn:Hel; simpl.
    + unfold remove; simpl. destruct (emitter st) as [em|] eqn:Hem; [|done].
      rewrite Hh. rewrite bool_decide_true by (by apply list_elem_of_singleton). simpl.
      split; simpl; [by rewrite Hel; constructor | by rewrite Hel |].
      unfold active_handlers; simpl.
      rewrite filter_cons_False by (by intros ?). done.
    + split; simpl; [by rewrite Hel | by rewrite Hns, Hel |].
      unfold active_handlers; simpl. by rewrite Hns.
  - split; simpl; [done | | unfold active_handlers; simpl; by rewrite Hns].
    rewrite Hns. split; [|done]. intros _.
    rewrite Set_values_delete. rewrite (proj1 Hsub); done.
Qed.

Lemma consistent_run_effect (st : State) (e : Effect) :
  consistent st -> consistent (run_effect st e).
Proof.
  destruct e; [apply consistent_onDeepLink | apply consistent_unsubscribe].
Qed.

Lemma consistent_effects (es : list Effect) (st : State) :
  consistent st -> consistent (fold_left run_effect es st).
Proof.
  revert st. induction es as [|e es IH]; intros st H; simpl; [done|].
  apply IH. by apply consistent_run_effect.
Qed.

(** With no handler registered, an emitted event starts no resolution. *)
Lemma emit_no_handlers (url : string) (st : State) :
  active_handlers st = [] -> emit url st = st.
Proof.
  unfold active_handlers, emit. destruct (emitter st); [|done]. by intros ->.
Qed.

(** With the one handler registered, it starts exactly one. *)
Lemma emit_one_handler (url : string) (st : State) (id : nat) :
  active_handlers st = [id] -> emit url st = resolveAndDispatch_call url st.
Proof.
  unfold active_handlers, emit. destruct (emitter st); [|done]. by intros ->.
Qed.

Lemma Set_values_run_effect (st : State) (e : Effect) :
  Set_values (listeners (run_effect st e))
  = active_set_step (Set_values (listeners st)) e.
Proof.
  destruct e as [l|l]; cbn [run_effect active_set_step].
  - by rewrite listeners_onDeepLink, Set_values_add.
  - by rewrite listeners_unsubscribe, Set_values_delete.
Qed.

Lemma Set_values_effects (es : list Effect) (st : State) :
  Set_values (listeners (fold_left run_effect es st))
  = fold_left active_set_step es (Set_values (listeners st)).
Proof.
  revert st. induction es as [|e es IH]; intros st; simpl; [done|].
  by rewrite IH, Set_values_run_effect.
Qed.

(** A subscribe that finds the underlying subscription in place leaves
    it, the emitter and the native module alone. *)
Lemma onDeepLink_subscribed (l : Listener) (st : State) :
  consistent st ->
  nativeSubscription st <> None ->
  nativeSubscription (onDeepLink l st) = nativeSubscription st
  /\ emitter (onDeepLink l st) = emitter st
  /\ native (onDeepLink l st) = native st.
Proof.
  intros [_ _ Hh] Hsub. unfold active_handlers in Hh. unfold onDeepLink.
  destruct (nativeSubscription st) as [id|] eqn:Hns; [|done].
  destruct (emitter st) as [em|] eqn:Hem; [|done]. by rewrite Hns.
Qed.

(** An unsubscribe that leaves a listener in the set leaves the
    underlying subscription alone. *)
Lemma unsubscribe_not_last (l : Listener) (st : State) :
  Set_values (listeners (unsubscribe l st)) <> [] ->
  nativeSubscription (unsubscribe l st) = nativeSubscription st
  /\ emitter (unsubscribe l st) = emitter st
  /\ native (unsubscribe l st) = native st.
Proof.
  rewrite listeners_unsubscribe. intros Hne. unfold unsubscribe. simpl.
  destruct (nativeSubscription st) as [id|] eqn:Hns; [|simpl; by rewrite ?Hns].
  unfold Set_size.
  destruct (Set_values (Set_delete l (listeners st))); [done|]. simpl.
  by rewrite ?Hns.
Qed.

(** C8. After any sequence of subscribe and unsubscribe calls from the
    initial state, the set holds the listeners those calls describe
    and the underlying subscription is present exactly when the set is
    non-empty; the emitter holds that one subscription and no second
    one.  From such a state: a subscribe leaves its listener in the
    set with the one underlying subscription in place, making it when
    there was none and leaving it, the emitter and the native module
    alone when there was one; an unsubscribe of the only listener
    empties the set and tears the subscription down, the emitter
    holding no handler any more, and any other unsubscribe leaves the
    subscription alone; with a listener in the set an emitted push
    event makes exactly one resolver call; and while the set is empty a
    push event, whether emitted to JavaScript or handed to the native
    module, makes no call to the resolver. *)
Theorem subscription_iff_listeners (m : NativeModule) (ops : list Effect) :
  let st := fold_left run_effect ops (initial m) in
  (nativeSubscription st <> None <-> Set_values (listeners st) <> [])
  /\ Set_values (listeners st) = active_set ops
  /\ active_handlers st
     = match nativeSubscription st with Some id => [id] | None => [] end
  /\ (length (active_handlers st) <= 1)%nat
  /\ (forall l,
        l ∈ Set_values (listeners (onDeepLink l st))
        /\ (exists id,
              nativeSubscription (onDeepLink l st) = Some id
              /\ active_handlers (onDeepLink l st) = [id])
        /\ (nativeSubscription st <> None ->
            nativeSubscription (onDeepLink l st) = nativeSubscription st
            /\ emitter (onDeepLink l st) = emitter st
            /\ native (onDeepLink l st) = native st))
  /\ (forall l,
        Set_values (listeners st) = [l] ->
        Set_values (listeners (unsubscribe l st)) = []
        /\ nativeSubscription (unsubscribe l st) = None
        /\ active_handlers (unsubscribe l st) = [])
  /\ (forall l,
        Set_values (listeners (unsubscribe l st)) <> [] ->
        nativeSubscription (unsubscribe l st) = nativeSubscription st
        /\ emitter (unsubscribe l st) = emitter st
        /\ native (unsubscribe l st) = native st)
  /\ (Set_values (listeners st) <> [] ->
      forall url, calls (emit url st) = calls st ++ [CallHandleDeepLink url])
  /\ (Set_values (listeners st) = [] ->
      nativeSubscription st = None
      /\ forall url,
           emit url st = st
           /\ calls (incomingURL url st) = calls st
           /\ inflight (incomingURL url st) = inflight st).
Proof.
  intros st.
  assert (consistent st) as Hc by (apply consistent_effects, consistent_initial).
  pose proof Hc as [Hnd Hsub Hh].
  split; [by rewrite Hsub|]. split; [apply (Set_values_effects ops (initial m))|].
  split; [done|]. split.
  { rewrite Hh. destruct (nativeSubscription st); simpl; lia. }
  split; [|split; [|split; [|split]]].
  - intros l.
    assert (l ∈ Set_values (listeners (onDeepLink l st))) as Hin.
    { rewrite listeners_onDeepLink, Set_values_add. case_bool_decide; [done|].
      apply elem_of_app. right. by apply list_elem_of_singleton. }
    split; [done|]. split; [|by apply onDeepLink_subscribed].
    destruct (consistent_onDeepLink l st Hc) as [_ Hsub' Hh'].
    destruct (nativeSubscription (onDeepLink l st)) as [id|]; [by exists id|].
    rewrite (proj1 Hsub') in Hin by done. by apply not_elem_of_nil in Hin.
  - intros l Hl.
    assert (Set_values (listeners (unsubscribe l st)) = []) as Hempty.
    { rewrite listeners_unsubscribe, Set_values_delete, Hl.
      by rewrite filter_cons_False by (by intros ?). }
    destruct (consistent_unsubscribe l st Hc) as [_ Hsub' Hh'].
    apply Hsub' in Hempty as Hnone. by rewrite Hh', Hnone.
  - intros l. apply unsubscribe_not_last.
  - intros Hne url.
    destruct (nativeSubscription st) as [id|] eqn:Hns; [|by destruct Hne; apply Hsub].
    by rewrite (emit_one_handler url st id Hh).
  - intros Hempty. apply Hsub in Hempty as Hnone. split; [done|].
    rewrite Hnone in Hh. intros url.
    pose proof (emit_no_handlers url st Hh) as Hemit. split; [done|].
    unfold incomingURL. destruct (native st) as [u|p h n].
    + by rewrite Hemit.
    + destruct h; [by rewrite Hemit | done].
Qed.

(** ** Fan-out *)

(** [consistent] looks at the three module variables only. *)
Lemma consistent_ext (st st' : State) :
  emitter st' = emitter st ->
  listeners st' = listeners st ->
  nativeSubscription st' = nativeSubscription st ->
  consistent st -> consistent st'.
Proof.
  intros He Hl Hn [Hnd Hsub Hh].
  split; unfold active_handlers in *; by rewrite ?He, ?Hl, ?Hn.
Qed.

Lemma consistent_call_listener (l : Listener) (event : DeepLinkEvent) (st : State) :
  consistent st -> consistent (snd (call_listener l event st)).
Proof.
  intros H. unfold call_listener. simpl. apply consistent_effects.
  by apply (consistent_ext st).
Qed.

Lemma for_of_listeners_S (fuel : nat) (event : DeepLinkEvent) (index : nat) (st : State) :
  for_of_listeners (S fuel) event index st
  = match listeners st !! index with
    | None => Some (None, st)
    | Some None => for_of_listeners fuel event (S index) st
    | Some (Some l) =>
        match call_listener l event st with
        | (Some e, st') => Some (Some e, st')
        | (None, st') => for_of_listeners fuel event (S index) st'
        end
    end.
Proof. reflexivity. Qed.

Lemma consistent_for_of (fuel : nat) (event : DeepLinkEvent) :
  forall (index : nat) (st : State) (r : option Thrown) (st' : State),
    consistent st ->
    for_of_listeners fuel event index st = Some (r, st') ->
    consistent st'.
Proof.
  induction fuel as [|fuel IH]; intros index st r st' Hc; [done|].
  rewrite for_of_listeners_S.
  destruct (listeners st !! index) as [[l|]|] eqn:Hi.
  - pose proof (consistent_call_listener l event st Hc) as Hc'.
    destruct (call_listener l event st) as [[e|] st1]; simpl in Hc'.
    + intros ?; by simplify_eq.
    + by apply IH.
  - by apply IH.
  - intros ?; by simplify_eq.
Qed.

(** What every loop preserves, [resolveAndDispatch] preserves. *)
Lemma resolveAndDispatch_settle_preserves (Q : State -> Prop)
    (fuel : nat) (outcome : Settlement) (st : State) (r : option Thrown) (st' : State) :
  (forall event s r' s',
     Q s -> for_of_listeners fuel event 0 s = Some (r', s') -> Q s') ->
  Q st ->
  resolveAndDispatch_settle fuel outcome st = Some (r, st') ->
  Q st'.
Proof.
  intros Hloops HQ.
  assert (forall error s,
            Q s -> resolveAndDispatch_catch fuel error s = Some (r, st') -> Q st')
    as Hcatch.
  { intros error s Hs. unfold resolveAndDispatch_catch.
    destruct (mapNativeError error); [by apply Hloops|].
    intros ?; by simplify_eq. }
  unfold resolveAndDispatch_settle.
  destruct outcome as [result|error]; [|by apply Hcatch].
  destruct (deserializeDeepLink result) as [[deepLink|]|thrown];
    [|intros ?; by simplify_eq|by apply Hcatch].
  destruct (for_of_listeners fuel (DeepLinkArm deepLink) 0 st)
    as [[[e|] st1]|] eqn:Hloop; [| |done].
  - apply Hcatch. by apply Hloops in Hloop.
  - intros ?; simplify_eq. by apply Hloops in Hloop.
Qed.

Lemma consistent_resolveAndDispatch_settle
    (fuel : nat) (outcome : Settlement) (st : State) (r : option Thrown) (st' : State) :
  consistent st ->
  resolveAndDispatch_settle fuel outcome st = Some (r, st') ->
  consistent st'.
Proof.
  apply resolveAndDispatch_settle_preserves.
  intros event s r' s'. apply consistent_for_of.
Qed.

Lemma consistent_settle
    (fuel i : nat) (outcome : Settlement) (st st' : State) :
  consistent st -> settle fuel i outcome st = Some st' -> consistent st'.
Proof.
  intros Hc. unfold settle. destruct (inflight st !! i); [|by intros [= <-]].
  destruct (resolveAndDispatch_settle _ _ _) as [[r st1]|] eqn:Hs; [|done].
  simpl. intros [= <-]. eapply consistent_resolveAndDispatch_settle; [|exact Hs].
  by apply (consistent_ext st).
Qed.

Lemma deliver_all_nil (event : DeepLinkEvent) (st : State) :
  deliver_all event [] st = st.
Proof. destruct st. unfold deliver_all. simpl. by rewrite app_nil_r. Qed.

Lemma deliver_all_cons (event : DeepLinkEvent) (l : Listener) (ls : list Listener) (st : State) :
  deliver_all event ls (record_delivery l event st) = deliver_all event (l :: ls) st.
Proof. unfold deliver_all, record_delivery. simpl. by rewrite <- app_assoc. Qed.

(** Over quiet listeners the loop ends, having called each element of
    the set once, in insertion order, with the same event. *)
Lemma for_of_quiet (fuel : nat) (event : DeepLinkEvent) :
  forall (index : nat) (st : State),
    (forall l, l ∈ Set_values (listeners st) -> quiet l) ->
    (length (listeners st) - index < fuel)%nat ->
    for_of_listeners fuel event index st
    = Some (None, deliver_all event (Set_values (drop index (listeners st))) st).
Proof.
  induction fuel as [|fuel IH]; intros index st Hq Hfuel; [lia|].
  rewrite for_of_listeners_S.
  destruct (listeners st !! index) as [[l|]|] eqn:Hi.
  - assert (quiet l) as Hl by (apply Hq, elem_of_Set_values; eauto).
    unfold call_listener. rewrite Hl. simpl.
    apply lookup_lt_Some in Hi as Hlt.
    rewrite IH; simpl; [|done|lia].
    rewrite (drop_S _ _ _ Hi). simpl. by rewrite deliver_all_cons.
  - apply lookup_lt_Some in Hi as Hlt.
    rewrite IH; [|done|lia]. by rewrite (drop_S _ _ _ Hi).
  - apply lookup_ge_None in Hi. rewrite drop_ge by done. simpl.
    by rewrite deliver_all_nil.
Qed.

(** What a settled resolution does over quiet listeners: the event it
    turns into goes to each element of the set. *)
Lemma resolveAndDispatch_settle_quiet
    (fuel : nat) (outcome : Settlement) (event : DeepLinkEvent) (st : State) :
  (forall l, l ∈ Set_values (listeners st) -> quiet l) ->
  (length (listeners st) < fuel)%nat ->
  event_of outcome = Some event ->
  resolveAndDispatch_settle fuel outcome st
  = Some (None, deliver_all event (Set_values (listeners st)) st).
Proof.
  intros Hq Hfuel.
  assert (forall ev,
            for_of_listeners fuel ev 0 st
            = Some (None, deliver_all ev (Set_values (listeners st)) st)) as Hloop.
  { intros ev. rewrite for_of_quiet; [done | done | lia]. }
  unfold event_of, resolveAndDispatch_settle, resolveAndDispatch_catch.
  destruct outcome as [result|error]; cbn [and_then].
  - destruct (deserializeDeepLink result) as [[deepLink|]|thrown]; [| done |].
    + intros [= <-]. by rewrite Hloop.
    + destruct (mapNativeError thrown); [|done]. intros [= <-]. apply Hloop.
  - destruct (mapNativeError error); [|done]. intros [= <-]. apply Hloop.
Qed.

(** C10. A resolution that settles with a payload normalizing to
    [null] (which is the case exactly for [null] itself and for
    payloads that are not objects) reaches no listener, whatever the
    listeners would do: [resolveAndDispatch] completes at once and
    leaves the whole state, deliveries and listener set and
    subscription included, as it was. *)
Theorem no_match_is_silent (fuel i : nat) (result : JSValue) (st : State) (url : string) :
  deserializeDeepLink result = Success None ->
  inflight st !! i = Some url ->
  is_object result = false
  /\ resolveAndDispatch_settle fuel (Success result) st = Some (None, st)
  /\ exists st',
       settle fuel i (Success result) st = Some st'
       /\ delivered st' = delivered st
       /\ listeners st' = listeners st
       /\ nativeSubscription st' = nativeSubscription st
       /\ emitter st' = emitter st
       /\ native st' = native st
       /\ calls st' = calls st.
Proof.
  intros Hnull Hi. split.
  { destruct (is_object result) eqn:Hobj; [|done].
    by destruct (deserializeDeepLink_object result Hobj). }
  unfold settle, resolveAndDispatch_settle.
  rewrite Hnull, Hi. simpl. split; [done|]. eexists. split; [reflexivity|]. done.
Qed.

(** C1, as it holds.  A push event reaching the subscribed module makes
    the one resolver call on its URL.  The set holds no listener twice.
    When the listeners in the set at settlement are quiet: a resolution
    that settles with a payload normalizing to a link hands that link,
    and a resolution that rejects with a value [mapNativeError] maps
    hands the typed error, to each element of the set, once, in
    insertion order, all with the same event, and the state is
    otherwise unchanged; a resolution that settles with a payload
    normalizing to [null] calls no listener. *)
Theorem push_event_fanout
    (st : State) (url : string) (st1 : State) (i fuel : nat) :
  consistent st ->
  nativeSubscription st <> None ->
  consistent st1 ->
  inflight st1 !! i = Some url ->
  (forall l, l ∈ Set_values (listeners st1) -> quiet l) ->
  (length (listeners st1) < fuel)%nat ->
  (calls (emit url st) = calls st ++ [CallHandleDeepLink url]
   /\ inflight (emit url st) = inflight st ++ [url])
  /\ NoDup (Set_values (listeners st1))
  /\ (forall result deepLink,
        deserializeDeepLink result = Success (Some deepLink) ->
        exists st2,
          settle fuel i (Success result) st1 = Some st2
          /\ delivered st2
             = delivered st1
               ++ List.map (fun l => (l, DeepLinkArm deepLink))
                    (Set_values (listeners st1))
          /\ listeners st2 = listeners st1
          /\ nativeSubscription st2 = nativeSubscription st1
          /\ inflight st2 = delete i (inflight st1))
  /\ (forall error warpLinkError,
        mapNativeError error = Success warpLinkError ->
        exists st2,
          settle fuel i (Failure error) st1 = Some st2
          /\ delivered st2
             = delivered st1
               ++ List.map (fun l => (l, ErrorArm warpLinkError))
                    (Set_values (listeners st1))
          /\ listeners st2 = listeners st1
          /\ nativeSubscription st2 = nativeSubscription st1
          /\ inflight st2 = delete i (inflight st1))
  /\ (forall result,
        deserializeDeepLink result = Success None ->
        exists st2,
          settle fuel i (Success result) st1 = Some st2
          /\ delivered st2 = delivered st1
          /\ listeners st2 = listeners st1
          /\ nativeSubscription st2 = nativeSubscription st1
          /\ inflight st2 = delete i (inflight st1)).
Proof.
  intros Hc Hsub Hc1 Hi Hq Hfuel.
  assert (forall outcome event,
            event_of outcome = Some event ->
            exists st2,
              settle fuel i outcome st1 = Some st2
              /\ delivered st2
                 = delivered st1
                   ++ List.map (fun l => (l, event)) (Set_values (listeners st1))
              /\ listeners st2 = listeners st1
              /\ nativeSubscription st2 = nativeSubscription st1
              /\ inflight st2 = delete i (inflight st1)) as Hevent.
  { intros outcome event Hev. unfold settle. rewrite Hi.
    rewrite (resolveAndDispatch_settle_quiet fuel outcome event); [|done|done|done].
    eexists. split; [reflexivity|]. done. }
  split; [|split; [apply Hc1|split; [|split]]].
  - destruct Hc as [_ _ Hh].
    destruct (nativeSubscription st) as [id|] eqn:Hns; [|done].
    by rewrite (emit_one_handler url st id Hh).
  - intros result deepLink Hlink. apply Hevent.
    unfold event_of. cbn [and_then]. by rewrite Hlink.
  - intros error warpLinkError Herr. apply Hevent.
    unfold event_of. cbn [and_then]. by rewrite Herr.
  - intros result Hnull. unfold settle, resolveAndDispatch_settle.
    rewrite Hi, Hnull. eexists. split; [reflexivity|]. done.
Qed.

(** ** Re-entrant listeners *)

Lemma delivered_run_effect (st : State) (e : Effect) :
  delivered (run_effect st e) = delivered st.
Proof.
  destruct e as [l|l]; simpl.
  - unfold onDeepLink. destruct (emitter st); simpl;
      destruct (nativeSubscription st); done.
  - unfold unsubscribe. simpl. destruct (nativeSubscription st); [|done].
    destruct (Nat.eqb _ 0); [|done]. simpl. unfold remove. simpl.
    destruct (emitter st); [|done]. by case_bool_decide.
Qed.

Lemma delivered_effects (es : list Effect) (st : State) :
  delivered (fold_left run_effect es st) = delivered st.
Proof.
  revert st. induction es as [|e es IH]; intros st; simpl; [done|].
  by rewrite IH, delivered_run_effect.
Qed.

Lemma delivered_call_listener (l : Listener) (event : DeepLinkEvent) (st : State) :
  delivered (snd (call_listener l event st)) = delivered st ++ [(l, event)].
Proof. unfold call_listener. simpl. by rewrite delivered_effects. Qed.

(** The loop only ever appends deliveries, all of them of [event]. *)
Lemma for_of_appends (fuel : nat) (event : DeepLinkEvent) :
  forall (index : nat) (st : State) (r : option Thrown) (st' : State),
    for_of_listeners fuel event index st = Some (r, st') ->
    exists new,
      delivered st' = delivered st ++ new /\ Forall (fun d => snd d = event) new.
Proof.
  induction fuel as [|fuel IH]; intros index st r st'; [done|].
  rewrite for_of_listeners_S.
  destruct (listeners st !! index) as [[l|]|] eqn:Hi.
  - pose proof (delivered_call_listener l event st) as Hd.
    destruct (call_listener l event st) as [[e|] st1]; simpl in Hd.
    + intros ?; simplify_eq. exists [(l, event)]. split; [done|].
      by constructor.
    + intros (new & Hnew & Hall)%IH. exists ((l, event) :: new). split.
      * by rewrite Hnew, Hd, <- app_assoc.
      * by constructor.
  - apply IH.
  - intros ?; simplify_eq. exists []. split; [by rewrite app_nil_r | done].
Qed.

Lemma lookup_Set_add (l : Listener) (entries : list (option Listener)) (j : nat)
    (x : option Listener) :
  entries !! j = Some x -> Set_add l entries !! j = Some x.
Proof.
  intros H. unfold Set_add. case_bool_decide; [done|]. by apply lookup_app_l_Some.
Qed.

Lemma lookup_Set_delete_ne (l l' : Listener) (entries : list (option Listener)) (j : nat) :
  l <> l' ->
  entries !! j = Some (Some l) ->
  Set_delete l' entries !! j = Some (Some l).
Proof.
  intros Hne H. unfold Set_delete.
  change (List.map ?f entries) with (f <$> entries).
  rewrite list_lookup_fmap, H. simpl.
  rewrite bool_decide_false; [done | congruence].
Qed.

Lemma length_Set_delete (l : Listener) (entries : list (option Listener)) :
  length (Set_delete l entries) = length entries.
Proof. unfold Set_delete. apply length_map. Qed.

Lemma slot_run_effect (st : State) (e : Effect) (j : nat) (l : Listener) :
  e <> DoUnsubscribe l ->
  listeners st !! j = Some (Some l) ->
  listeners (run_effect st e) !! j = Some (Some l).
Proof.
  intros Hne H. destruct e as [l'|l']; cbn [run_effect].
  - rewrite listeners_onDeepLink. by apply lookup_Set_add.
  - rewrite listeners_unsubscribe. apply lookup_Set_delete_ne; [congruence | done].
Qed.

Lemma slot_effects (es : list Effect) (st : State) (j : nat) (l : Listener) :
  DoUnsubscribe l ∉ es ->
  listeners st !! j = Some (Some l) ->
  listeners (fold_left run_effect es st) !! j = Some (Some l).
Proof.
  revert st. induction es as [|e es IH]; intros st Hnot H; simpl; [done|].
  apply not_elem_of_cons in Hnot as [Hne Hnot].
  apply IH; [done|]. by apply slot_run_effect.
Qed.

(** A loop that runs to its end calls every listener that sits in a slot
    not yet passed and that no callback unsubscribes. *)
Lemma for_of_reaches (fuel : nat) (event : DeepLinkEvent) (j : nat) (l : Listener) :
  never_unsubscribed l ->
  forall (index : nat) (st st' : State),
    (index <= j)%nat ->
    listeners st !! j = Some (Some l) ->
    for_of_listeners fuel event index st = Some (None, st') ->
    exists new, delivered st' = delivered st ++ new /\ (l, event) ∈ new.
Proof.
  intros Hkeep.
  induction fuel as [|fuel IH]; intros index st st' Hle Hj; [done|].
  rewrite for_of_listeners_S.
  destruct (listeners st !! index) as [[l0|]|] eqn:Hi.
  - pose proof (delivered_call_listener l0 event st) as Hd.
    assert (listeners (snd (call_listener l0 event st)) !! j = Some (Some l)) as Hj'.
    { unfold call_listener. simpl. apply slot_effects; [apply Hkeep | done]. }
    destruct (call_listener l0 event st) as [[e|] st1]; simpl in Hd, Hj'; [done|].
    destruct (decide (index = j)) as [->|Hne].
    + rewrite Hj in Hi. injection Hi as <-.
      intros (new & Hnew & _)%for_of_appends.
      exists ((l, event) :: new). split.
      * by rewrite Hnew, Hd, <- app_assoc.
      * apply elem_of_cons. by left.
    + intros (new & Hnew & Hin)%IH; [|lia|done].
      exists ((l0, event) :: new). split.
      * by rewrite Hnew, Hd, <- app_assoc.
      * apply elem_of_cons. by right.
  - destruct (decide (index = j)) as [->|Hne]; [congruence|].
    apply IH; [lia | done].
  - apply lookup_ge_None in Hi. apply lookup_lt_Some in Hj. lia.
Qed.

Lemma length_listeners_effects (es : list Effect) (st : State) :
  (forall e, e ∈ es -> exists l', e = DoUnsubscribe l') ->
  length (listeners (fold_left run_effect es st)) = length (listeners st).
Proof.
  revert st. induction es as [|e es IH]; intros st Hes; simpl; [done|].
  rewrite IH.
  - destruct (Hes e) as [l' ->]; [apply elem_of_cons; by left|].
    cbn [run_effect]. by rewrite listeners_unsubscribe, length_Set_delete.
  - intros e' He'. apply Hes, elem_of_cons. by right.
Qed.

(** When callbacks only unsubscribe, the list of slots keeps its length
    and the loop ends within that many rounds. *)
Lemma for_of_terminates (fuel : nat) (event : DeepLinkEvent) :
  only_unsubscribe ->
  forall (index : nat) (st : State),
    (length (listeners st) - index < fuel)%nat ->
    is_Some (for_of_listeners fuel event index st).
Proof.
  intros Honly.
  induction fuel as [|fuel IH]; intros index st Hfuel; [lia|].
  rewrite for_of_listeners_S.
  destruct (listeners st !! index) as [[l|]|] eqn:Hi; [| |done].
  - apply lookup_lt_Some in Hi as Hlt.
    assert (length (listeners (snd (call_listener l event st)))
            = length (listeners st)) as Hlen.
    { unfold call_listener. simpl. rewrite length_listeners_effects; [done|].
      intros e He. by apply (Honly l event st). }
    destruct (call_listener l event st) as [[e|] st1]; simpl in Hlen; [done|].
    apply IH. lia.
  - apply lookup_lt_Some in Hi as Hlt. apply IH. lia.
Qed.

Lemma for_of_no_throw (fuel : nat) (event : DeepLinkEvent) :
  never_throw ->
  forall (index : nat) (st : State) (r : option Thrown) (st' : State),
    for_of_listeners fuel event index st = Some (r, st') -> r = None.
Proof.
  intros Hno.
  induction fuel as [|fuel IH]; intros index st r st'; [done|].
  rewrite for_of_listeners_S.
  destruct (listeners st !! index) as [[l|]|] eqn:Hi.
  - unfold call_listener. rewrite Hno. apply IH.
  - apply IH.
  - intros ?; by simplify_eq.
Qed.

(** *** The loop walks the live set *)

Lemma Set_values_drop (n : nat) (entries : list (option Listener)) (x : Listener) :
  x ∈ Set_values (drop n entries) -> x ∈ Set_values entries.
Proof.
  rewrite !elem_of_Set_values. intros [i Hi]. rewrite lookup_drop in Hi. eauto.
Qed.

Lemma Set_values_drop_delete (n : nat) (l : Listener) (entries : list (option Listener)) :
  Set_values (drop n (Set_delete l entries))
  = filter (fun x => x ≠ l) (Set_values (drop n entries)).
Proof.
  rewrite <- Set_values_delete. unfold Set_delete.
  change (List.map ?f ?xs) with (f <$> xs). by rewrite fmap_drop.
Qed.

(** Unsubscribing only removes, slot by slot. *)
Lemma Set_values_drop_effects (n : nat) (es : list Effect) (x : Listener) :
  (forall e, e ∈ es -> exists l', e = DoUnsubscribe l') ->
  forall st,
    x ∈ Set_values (drop n (listeners (fold_left run_effect es st))) ->
    x ∈ Set_values (drop n (listeners st)).
Proof.
  induction es as [|e es IH]; intros Hes st; simpl; [done|].
  intros Hx. apply IH in Hx.
  2: { intros e' He'. apply Hes, elem_of_cons. by right. }
  destruct (Hes e) as [l' ->]; [apply elem_of_cons; by left|].
  cbn [run_effect] in Hx.
  rewrite listeners_unsubscribe, Set_values_drop_delete in Hx.
  by apply list_elem_of_filter in Hx as [_ Hx].
Qed.

(** Once a callback that only unsubscribes has unsubscribed [l], the
    set does not hold [l]. *)
Lemma unsubscribed_effects (l : Listener) (es : list Effect) :
  (forall e, e ∈ es -> exists l', e = DoUnsubscribe l') ->
  DoUnsubscribe l ∈ es ->
  forall st, l ∉ Set_values (listeners (fold_left run_effect es st)).
Proof.
  induction es as [|e es IH]; intros Hes Hin st; [by apply not_elem_of_nil in Hin|].
  assert (forall e', e' ∈ es -> exists l', e' = DoUnsubscribe l') as Hes'.
  { intros e' He'. apply Hes, elem_of_cons. by right. }
  simpl. apply elem_of_cons in Hin as [<-|Hin]; [|by apply IH].
  intros Hl. rewrite <- (drop_0 (listeners _)) in Hl.
  apply Set_values_drop_effects in Hl; [|done].
  rewrite drop_0 in Hl. cbn [run_effect] in Hl.
  rewrite listeners_unsubscribe, Set_values_delete in Hl.
  by apply list_elem_of_filter in Hl as [Hne _].
Qed.

(** When callbacks only unsubscribe, a listener that sits in no slot
    still ahead is not called. *)
Lemma for_of_skips (fuel : nat) (event : DeepLinkEvent) (l : Listener) :
  only_unsubscribe ->
  forall (index : nat) (st : State) (r : option Thrown) (st' : State),
    l ∉ Set_values (drop index (listeners st)) ->
    for_of_listeners fuel event index st = Some (r, st') ->
    exists new,
      delivered st' = delivered st ++ new /\ Forall (fun d => fst d ≠ l) new.
Proof.
  intros Honly.
  induction fuel as [|fuel IH]; intros index st r st' Hnot; [done|].
  rewrite for_of_listeners_S.
  destruct (listeners st !! index) as [[x|]|] eqn:Hi.
  - assert (x ≠ l) as Hne.
    { intros ->. apply Hnot. rewrite (drop_S _ _ _ Hi). simpl.
      apply elem_of_cons. by left. }
    pose proof (delivered_call_listener x event st) as Hd.
    assert (l ∉ Set_values (drop (S index)
                              (listeners (snd (call_listener x event st))))) as Hnot'.
    { unfold call_listener. cbn [snd]. intros Hl.
      apply Set_values_drop_effects in Hl; [|by apply (Honly x event st)].
      apply Hnot. rewrite (drop_S _ _ _ Hi). simpl.
      apply elem_of_cons. by right. }
    destruct (call_listener x event st) as [[e|] st1]; simpl in Hd, Hnot'.
    + intros ?; simplify_eq. exists [(x, event)]. split; [done|].
      by repeat constructor.
    + intros (new & Hnew & Hall)%IH; [|done].
      exists ((x, event) :: new). split.
      * by rewrite Hnew, Hd, <- app_assoc.
      * by constructor.
  - apply IH. intros Hl. apply Hnot. by rewrite (drop_S _ _ _ Hi).
  - intros ?; simplify_eq. exists []. split; [by rewrite app_nil_r | done].
Qed.

Lemma length_run_effect (st : State) (e : Effect) :
  (length (listeners st) <= length (listeners (run_effect st e)))%nat.
Proof.
  destruct e as [l|l]; cbn [run_effect].
  - rewrite listeners_onDeepLink. unfold Set_add. case_bool_decide; [done|].
    rewrite length_app. lia.
  - by rewrite listeners_unsubscribe, length_Set_delete.
Qed.

(** A slot that does not hold [b] is not given [b] by any call: a new
    listener goes to a new slot at the end. *)
Lemma slot_not_refilled (st : State) (e : Effect) (i : nat) (b : Listener) :
  (i < length (listeners st))%nat ->
  listeners st !! i ≠ Some (Some b) ->
  listeners (run_effect st e) !! i ≠ Some (Some b).
Proof.
  intros Hlt Hi. destruct e as [l|l]; cbn [run_effect].
  - rewrite listeners_onDeepLink. unfold Set_add. case_bool_decide; [done|].
    by rewrite lookup_app_l.
  - rewrite listeners_unsubscribe. unfold Set_delete.
    change (List.map ?f ?xs) with (f <$> xs). rewrite list_lookup_fmap.
    destruct (listeners st !! i) as [x|]; [|done]. simpl.
    case_bool_decide; [done|]. done.
Qed.

(** A listener that a callback subscribes, and that nobody
    unsubscribes, sits in a slot past those that existed. *)
Lemma added_effects (b : Listener) (n : nat) (es : list Effect) :
  DoUnsubscribe b ∉ es ->
  forall st,
    (n <= length (listeners st))%nat ->
    (forall i, (i < n)%nat -> listeners st !! i ≠ Some (Some b)) ->
    DoOnDeepLink b ∈ es \/ b ∈ Set_values (listeners st) ->
    exists j, (n <= j)%nat
              /\ listeners (fold_left run_effect es st) !! j = Some (Some b).
Proof.
  induction es as [|e es IH]; intros Hkeep st Hn Hold Hin; simpl.
  - destruct Hin as [Hin|Hin]; [by apply not_elem_of_nil in Hin|].
    apply elem_of_Set_values in Hin as [j Hj]. exists j. split; [|done].
    destruct (decide (n <= j)%nat); [done|]. destruct (Hold j); [lia | done].
  - apply not_elem_of_cons in Hkeep as [Hne Hkeep].
    apply IH; [done| | |].
    + pose proof (length_run_effect st e). lia.
    + intros i Hi. apply slot_not_refilled; [lia | by apply Hold].
    + destruct Hin as [Hin|Hin].
      * apply elem_of_cons in Hin as [<-|Hin]; [|by left].
        right. cbn [run_effect]. rewrite listeners_onDeepLink, Set_values_add.
        case_bool_decide; [done|]. apply elem_of_app. right.
        by apply list_elem_of_singleton.
      * right. apply elem_of_Set_values in Hin as [j Hj].
        apply elem_of_Set_values. exists j. by apply slot_run_effect.
Qed.


(** ** Cold-start retrieval *)

Lemma stable_empty : stable (fun m => captured m = None).
Proof. split; [|split]; intros [u|p h n]; done. Qed.

Lemma stable_android : stable (fun m => is_android m = true).
Proof. split; [|split]; intros [u|p h n]; done. Qed.

Section Stable.

Variable P : NativeModule -> Prop.
Hypothesis HP : stable P.

Lemma native_onDeepLink (l : Listener) (st : State) :
  P (native st) -> P (native (onDeepLink l st)).
Proof.
  intros H. unfold onDeepLink.
  destruct (emitter st); simpl; destruct (nativeSubscription st); simpl;
    try done; by apply HP.
Qed.

Lemma native_unsubscribe (l : Listener) (st : State) :
  P (native st) -> P (native (unsubscribe l st)).
Proof.
  intros H. unfold unsubscribe. simpl.
  destruct (nativeSubscription st); [|done].
  destruct (Nat.eqb _ 0); [|done]. simpl. unfold remove. simpl.
  destruct (emitter st); [|done]. case_bool_decide; [|done]. simpl. by apply HP.
Qed.

Lemma native_effects (es : list Effect) (st : State) :
  P (native st) -> P (native (fold_left run_effect es st)).
Proof.
  revert st. induction es as [|e es IH]; intros st H; simpl; [done|].
  apply IH. destruct e; [by apply native_onDeepLink | by apply native_unsubscribe].
Qed.

Lemma native_for_of (fuel : nat) (event : DeepLinkEvent) :
  forall (index : nat) (st : State) (r : option Thrown) (st' : State),
    P (native st) ->
    for_of_listeners fuel event index st = Some (r, st') ->
    P (native st').
Proof.
  induction fuel as [|fuel IH]; intros index st r st' H; [done|].
  rewrite for_of_listeners_S.
  destruct (listeners st !! index) as [[l|]|] eqn:Hi.
  - assert (P (native (snd (call_listener l event st)))) as H'.
    { unfold call_listener. simpl. by apply native_effects. }
    destruct (call_listener l event st) as [[e|] st1]; simpl in H'.
    + intros ?; by simplify_eq.
    + by apply IH.
  - by apply IH.
  - intros ?; by simplify_eq.
Qed.

Lemma native_settle (fuel i : nat) (outcome : Settlement) (st st' : State) :
  P (native st) -> settle fuel i outcome st = Some st' -> P (native st').
Proof.
  intros H. unfold settle. destruct (inflight st !! i); [|intros ?; by simplify_eq].
  match goal with |- context [resolveAndDispatch_settle _ _ ?s] => set (st1 := s) end.
  assert (P (native st1)) as H1 by done. clearbody st1.
  destruct (resolveAndDispatch_settle fuel outcome st1) as [[r st2]|] eqn:Hs; [|done].
  simpl. intros ?; simplify_eq.
  apply (resolveAndDispatch_settle_preserves (fun s => P (native s))
           fuel outcome st1 r st'); [|done|done].
  intros event s0 r' s'. apply native_for_of.
Qed.

Lemma native_emit (url : string) (st : State) : native (emit url st) = native st.
Proof.
  unfold emit. destruct (emitter st) as [em|]; [|done].
  generalize (handlers em). intros hs. revert st.
  induction hs as [|h hs IH]; intros st; simpl; [done|]. by rewrite IH.
Qed.

Lemma native_step (st : State) (op : Op) (st' : State) :
  buffers st op = false ->
  P (native st) ->
  step st op = Some st' ->
  P (native st').
Proof.
  intros Hb H. destruct op; simpl.
  - intros ?; simplify_eq. by apply native_onDeepLink.
  - intros ?; simplify_eq. by apply native_unsubscribe.
  - intros ?; simplify_eq. unfold incomingURL. unfold buffers in Hb.
    destruct (native st) as [u|p [|] n] eqn:Hn; [| |done];
      by rewrite native_emit, Hn.
  - by apply native_settle.
  - intros ?; simplify_eq. unfold configure. by destruct (_ || _).
  - by intros ?; simplify_eq.
  - by intros ?; simplify_eq.
  - by intros ?; simplify_eq.
  - by intros ?; simplify_eq.
  - intros ?; simplify_eq. unfold getInitialDeepLink.
    pose proof (proj2 (proj2 HP) (native st) H) as Hg.
    destruct (getInitialURL (native st)) as [[u|] m]; simpl in Hg; [|done].
    unfold handleDeepLink. by destruct (try_catch _).
Qed.

Lemma native_run (ops : list Op) :
  forall (st st' : State),
    never_buffers ops st ->
    P (native st) ->
    run ops st = Some st' ->
    P (native st').
Proof.
  induction ops as [|op ops IH]; intros st st' Hnb H; simpl.
  - intros ?; by simplify_eq.
  - destruct Hnb as [Hb Hnb].
    destruct (step st op) as [st1|] eqn:Hstep; [|done].
    apply IH; [by apply Hnb|]. by apply (native_step st op st1).
Qed.

End Stable.

(** On Android no step buffers a URL. *)
Lemma android_never_buffers (ops : list Op) :
  forall st, is_android (native st) = true -> never_buffers ops st.
Proof.
  induction ops as [|op ops IH]; intros st Ha; simpl; [done|].
  assert (buffers st op = false) as Hb.
  { unfold buffers. destruct op; try done. by destruct (native st). }
  split; [done|]. intros st' Hstep. apply IH.
  by apply (native_step _ stable_android st op st').
Qed.

(** A call of [getInitialDeepLink] returns what [handleDeepLink] makes
    of the URL the native module holds, its rejection mapped once more,
    and empties the slot of the native module. *)
Lemma getInitialDeepLink_consumes (resolver : string -> Settlement) (st : State) :
  fst (getInitialDeepLink resolver st)
  = match captured (native st) with
    | None => Success None
    | Some url =>
        match try_catch (and_then (resolver url) deserializeDeepLink) with
        | Success link => Success link
        | Failure rejection => try_catch (Failure (thrown_of rejection))
        end
    end
  /\ captured (native (snd (getInitialDeepLink resolver st))) = None
  /\ is_android (native (snd (getInitialDeepLink resolver st)))
     = is_android (native st).
Proof.
  unfold getInitialDeepLink, handleDeepLink.
  destruct (native st) as [[u|]|[u|] h n]; cbn [getInitialURL captured]; try done;
    by destruct (try_catch (and_then (resolver u) deserializeDeepLink)).
Qed.

(** A typed rejection passes the outer [catch] unchanged. *)
Lemma try_catch_typed {A : Type} (error : Thrown) (e : WarpLinkError.t) :
  mapNativeError error = Success e ->
  try_catch (A := A) (Failure (thrown_of (Typed e))) = Failure (Typed e).
Proof.
  intros He. unfold try_catch, thrown_of.
  by rewrite (mapNativeError_idempotent error e He).
Qed.


(** ** Every reachable state is consistent *)

Lemma emit_module_variables (url : string) (st : State) :
  emitter (emit url st) = emitter st
  /\ listeners (emit url st) = listeners st
  /\ nativeSubscription (emit url st) = nativeSubscription st.
Proof.
  unfold emit. destruct (emitter st) as [em|] eqn:Hem; [|done].
  rewrite <- Hem. generalize (handlers em). intros hs. clear Hem. revert st.
  induction hs as [|h hs IH]; intros st; simpl; [done|].
  destruct (IH (handleNativeDeepLinkEvent url st)) as (-> & -> & ->). done.
Qed.

Lemma consistent_emit (url : string) (st : State) :
  consistent st -> consistent (emit url st).
Proof.
  destruct (emit_module_variables url st) as (He & Hl & Hn).
  by apply consistent_ext.
Qed.

Lemma consistent_step (st : State) (op : Op) (st' : State) :
  consistent st -> step st op = Some st' -> consistent st'.
Proof.
  intros Hc. destruct op; simpl.
  - intros ?; simplify_eq. by apply consistent_onDeepLink.
  - intros ?; simplify_eq. by apply consistent_unsubscribe.
  - intros ?; simplify_eq. unfold incomingURL.
    destruct (native st) as [u|p [|] n]; try by apply consistent_emit.
    by apply (consistent_ext st).
  - by apply consistent_settle.
  - intros ?; simplify_eq. unfold configure. destruct (_ || _); [done|].
    by apply (consistent_ext st).
  - intros ?; simplify_eq. by apply (consistent_ext st).
  - intros ?; simplify_eq. by apply (consistent_ext st).
  - intros ?; simplify_eq. by apply (consistent_ext st).
  - intros ?; simplify_eq. by apply (consistent_ext st).
  - intros ?; simplify_eq. unfold getInitialDeepLink, handleDeepLink.
    destruct (getInitialURL (native st)) as [[u|] m];
      [destruct (try_catch _)|]; by apply (consistent_ext st).
Qed.

Lemma consistent_run (ops : list Op) :
  forall (st st' : State),
    consistent st -> run ops st = Some st' -> consistent st'.
Proof.
  induction ops as [|op ops IH]; intros st st' Hc; simpl.
  - intros ?; by simplify_eq.
  - destruct (step st op) as [st1|] eqn:Hstep; [|done].
    apply IH. by apply (consistent_step st op).
Qed.

(** * Further properties *)

(** ** Registering and removing listeners *)

Lemma Set_delete_twice (l : Listener) (entries : list (option Listener)) :
  Set_delete l (Set_delete l entries) = Set_delete l entries.
Proof.
  unfold Set_delete. induction entries as [|e entries IH]; simpl; [done|].
  rewrite IH. f_equal. destruct (decide (e = Some l)) as [He|He].
  - by rewrite (bool_decide_true _ He), bool_decide_false.
  - by rewrite (bool_decide_false _ He), bool_decide_false.
Qed.

Lemma nativeSubscription_onDeepLink_kept (l : Listener) (st : State) (id : nat) :
  nativeSubscription st = Some id -> nativeSubscription (onDeepLink l st) = Some id.
Proof.
  intros Hns. unfold onDeepLink. destruct (emitter st); simpl; by rewrite Hns.
Qed.

Lemma nativeSubscription_unsubscribe (l : Listener) (st : State) :
  nativeSubscription (unsubscribe l st)
  = match nativeSubscription st with
    | Some id =>
        if Nat.eqb (Set_size (Set_delete l (listeners st))) 0 then None else Some id
    | None => None
    end.
Proof.
  unfold unsubscribe. simpl. destruct (nativeSubscription st) as [id|] eqn:Hns; [|done].
  by destruct (Nat.eqb _ 0).
Qed.

Lemma filter_absent (l : Listener) (xs : list Listener) :
  l ∉ xs -> filter (fun x => x ≠ l) xs = xs.
Proof.
  induction xs as [|x xs IH]; [done|]. intros [Hne Hnot]%not_elem_of_cons.
  rewrite filter_cons_True by congruence. by rewrite IH.
Qed.

Lemma onDeepLink_wired (l : Listener) (st : State) :
  is_Some (emitter (onDeepLink l st))
  /\ is_Some (nativeSubscription (onDeepLink l st)).
Proof.
  unfold onDeepLink.
  destruct (emitter st) as [em|] eqn:Hem; simpl;
    destruct (nativeSubscription st) as [id|] eqn:Hns; simpl;
    rewrite ?Hem, ?Hns; split; eauto.
Qed.

(** X1. Registering a listener that is already registered, wherever
    it sits in the set, changes nothing: the set keeps its members and
    their order, no second underlying subscription is made and the
    emitter is left alone. *)
Theorem onDeepLink_already_registered (l : Listener) (st : State) :
  consistent st ->
  l ∈ Set_values (listeners st) ->
  onDeepLink l st = st.
Proof.
  intros [_ Hsub Hh] Hin.
  destruct (nativeSubscription st) as [id|] eqn:Hns.
  2: { rewrite (proj1 Hsub) in Hin by done. by apply not_elem_of_nil in Hin. }
  unfold active_handlers in Hh.
  destruct (emitter st) as [em|] eqn:Hem; [|done].
  unfold onDeepLink. rewrite Hem, Hns. unfold Set_add.
  rewrite bool_decide_true by done.
  destruct st; simpl in *. by subst.
Qed.

(** X2. An unsubscribe function removes its listener and no other, in
    whatever state it is called, and calling it again changes nothing
    more. *)
Theorem unsubscribe_only_that_listener (l : Listener) (st : State) :
  Set_values (listeners (unsubscribe l st))
  = filter (fun x => x ≠ l) (Set_values (listeners st))
  /\ (l ∉ Set_values (listeners (unsubscribe l st)))
  /\ unsubscribe l (unsubscribe l st) = unsubscribe l st.
Proof.
  assert (Set_values (listeners (unsubscribe l st))
          = filter (fun x => x ≠ l) (Set_values (listeners st))) as Hvals
    by (by rewrite listeners_unsubscribe, Set_values_delete).
  split; [done|]. split.
  { rewrite Hvals. intros [Hne _]%list_elem_of_filter. done. }
  unfold unsubscribe at 1. rewrite listeners_unsubscribe, Set_delete_twice.
  rewrite <- (listeners_unsubscribe l st).
  assert (forall s : State, set_listeners (listeners s) s = s) as Heta
    by (by intros []).
  rewrite Heta.
  destruct (nativeSubscription (unsubscribe l st)) as [id|] eqn:Hns; [|done].
  destruct (Nat.eqb (Set_size (listeners (unsubscribe l st))) 0) eqn:Hsize; [|done].
  exfalso. rewrite nativeSubscription_unsubscribe in Hns.
  rewrite listeners_unsubscribe in Hsize.
  destruct (nativeSubscription st) as [id0|]; [|done]. by rewrite Hsize in Hns.
Qed.

(** X3. Subscribing a new listener and unsubscribing it again restores
    the members of the set and the underlying subscription: when it was
    the only listener the subscription made for it is torn down, and
    otherwise the existing one is kept. *)
Theorem subscribe_then_unsubscribe (l : Listener) (st : State) :
  consistent st ->
  l ∉ Set_values (listeners st) ->
  Set_values (listeners (unsubscribe l (onDeepLink l st))) = Set_values (listeners st)
  /\ nativeSubscription (unsubscribe l (onDeepLink l st)) = nativeSubscription st
  /\ active_handlers (unsubscribe l (onDeepLink l st)) = active_handlers st
  /\ consistent (unsubscribe l (onDeepLink l st)).
Proof.
  intros Hc Hnot.
  assert (Set_values (Set_delete l (listeners (onDeepLink l st)))
          = Set_values (listeners st)) as Hvals.
  { rewrite Set_values_delete, listeners_onDeepLink.
    rewrite Set_values_add, bool_decide_false by done.
    rewrite filter_app, filter_cons_False, filter_nil, app_nil_r by (by intros ?).
    by apply filter_absent. }
  pose proof (consistent_unsubscribe l _ (consistent_onDeepLink l st Hc)) as Hc'.
  assert (nativeSubscription (unsubscribe l (onDeepLink l st)) = nativeSubscription st)
    as Hns'.
  { rewrite nativeSubscription_unsubscribe. unfold Set_size. rewrite Hvals.
    destruct Hc as [_ Hsub _].
    destruct (nativeSubscription st) as [id|] eqn:Hns.
    - rewrite (nativeSubscription_onDeepLink_kept l st id Hns).
      destruct (Set_values (listeners st)) as [|x xs]; [|done].
      by destruct (proj2 Hsub).
    - rewrite (proj1 Hsub) by done.
      by destruct (nativeSubscription (onDeepLink l st)). }
  split; [by rewrite listeners_unsubscribe|]. split; [done|]. split; [|done].
  destruct Hc as [_ _ Hh]. destruct Hc' as [_ _ Hh']. by rewrite Hh, Hh', Hns'.
Qed.

(** ** Deliveries and the moment of settlement *)

Lemma inflight_run_effect (st : State) (e : Effect) :
  inflight (run_effect st e) = inflight st.
Proof.
  destruct e as [l|l]; simpl.
  - unfold onDeepLink. destruct (emitter st); simpl;
      destruct (nativeSubscription st); done.
  - unfold unsubscribe. simpl. destruct (nativeSubscription st); [|done].
    destruct (Nat.eqb _ 0); [|done]. simpl. unfold remove. simpl.
    destruct (emitter st); [|done]. by case_bool_decide.
Qed.

Lemma delivered_onDeepLink (l : Listener) (st : State) :
  delivered (onDeepLink l st) = delivered st.
Proof. exact (delivered_run_effect st (DoOnDeepLink l)). Qed.

Lemma delivered_unsubscribe (l : Listener) (st : State) :
  delivered (unsubscribe l st) = delivered st.
Proof. exact (delivered_run_effect st (DoUnsubscribe l)). Qed.

Lemma inflight_onDeepLink (l : Listener) (st : State) :
  inflight (onDeepLink l st) = inflight st.
Proof. exact (inflight_run_effect st (DoOnDeepLink l)). Qed.

Lemma inflight_unsubscribe (l : Listener) (st : State) :
  inflight (unsubscribe l st) = inflight st.
Proof. exact (inflight_run_effect st (DoUnsubscribe l)). Qed.

(** Over quiet listeners a settling resolution hands its event to the
    members of the set as it is at that moment. *)
Lemma settle_quiet
    (fuel i : nat) (outcome : Settlement) (event : DeepLinkEvent) (url : string)
    (st : State) :
  (forall l, l ∈ Set_values (listeners st) -> quiet l) ->
  inflight st !! i = Some url ->
  event_of outcome = Some event ->
  (length (listeners st) < fuel)%nat ->
  settle fuel i outcome st
  = Some (deliver_all event (Set_values (listeners st)) (taken i st)).
Proof.
  intros Hq Hi Hev Hfuel. unfold settle. rewrite Hi. fold (taken i st).
  by rewrite (resolveAndDispatch_settle_quiet fuel outcome event (taken i st)).
Qed.

Lemma length_Set_add (l : Listener) (entries : list (option Listener)) :
  (length (Set_add l entries) <= S (length entries))%nat.
Proof.
  unfold Set_add. case_bool_decide; [lia|]. rewrite length_app. simpl. lia.
Qed.

(** X4. An event goes to the set as it is when the resolution
    settles, not as it was when the push event arrived: a listener
    subscribed while the resolution is in flight receives the event,
    and one unsubscribed in the meantime (and only that one) does
    not. *)
Theorem delivery_follows_the_set_at_settlement
    (fuel i : nat) (outcome : Settlement) (event : DeepLinkEvent) (url : string)
    (l : Listener) (st : State) :
  (forall l', quiet l') ->
  inflight st !! i = Some url ->
  event_of outcome = Some event ->
  (S (length (listeners st)) < fuel)%nat ->
  delivered <$> settle fuel i outcome (onDeepLink l st)
  = Some (delivered st
          ++ List.map (fun x => (x, event)) (Set_values (Set_add l (listeners st))))
  /\ (l ∈ Set_values (Set_add l (listeners st)))
  /\ delivered <$> settle fuel i outcome (unsubscribe l st)
     = Some (delivered st
             ++ List.map (fun x => (x, event))
                  (filter (fun x => x ≠ l) (Set_values (listeners st)))).
Proof.
  intros Hq Hi Hev Hfuel. split; [|split].
  - rewrite (settle_quiet fuel i outcome event url).
    + cbn [fmap option_fmap option_map]. unfold deliver_all, taken.
      cbn [delivered listeners].
      by rewrite listeners_onDeepLink, delivered_onDeepLink.
    + intros l' _. apply Hq.
    + by rewrite inflight_onDeepLink.
    + done.
    + rewrite listeners_onDeepLink. pose proof (length_Set_add l (listeners st)). lia.
  - rewrite Set_values_add. case_bool_decide; [done|].
    apply elem_of_app. right. by apply list_elem_of_singleton.
  - rewrite (settle_quiet fuel i outcome event url).
    + cbn [fmap option_fmap option_map]. unfold deliver_all, taken.
      cbn [delivered listeners].
      by rewrite listeners_unsubscribe, Set_values_delete, delivered_unsubscribe.
    + intros l' _. apply Hq.
    + by rewrite inflight_unsubscribe.
    + done.
    + rewrite listeners_unsubscribe, length_Set_delete. lia.
Qed.

(** X5. Resolutions in flight at the same time deliver in the order in
    which they settle, not in the order in which their push events
    arrived: when the later one settles first, every listener gets its
    event first. *)
Theorem deliveries_in_settlement_order
    (fuel i j : nat) (o1 o2 : Settlement) (ev1 ev2 : DeepLinkEvent)
    (u1 u2 : string) (st : State) :
  (forall l, quiet l) ->
  (i < j)%nat ->
  inflight st !! i = Some u1 ->
  inflight st !! j = Some u2 ->
  event_of o1 = Some ev1 ->
  event_of o2 = Some ev2 ->
  (length (listeners st) < fuel)%nat ->
  exists st',
    settle fuel j o2 st ≫= settle fuel i o1 = Some st'
    /\ delivered st'
       = delivered st
         ++ List.map (fun x => (x, ev2)) (Set_values (listeners st))
         ++ List.map (fun x => (x, ev1)) (Set_values (listeners st))
    /\ inflight st' = delete i (delete j (inflight st))
    /\ listeners st' = listeners st.
Proof.
  intros Hq Hij Hi Hj Hev1 Hev2 Hfuel.
  rewrite (settle_quiet fuel j o2 ev2 u2); [|by intros; apply Hq|done|done|done].
  simpl.
  rewrite (settle_quiet fuel i o1 ev1 u1); [|by intros; apply Hq| |done|done].
  - eexists. split; [reflexivity|]. simpl. by rewrite <- app_assoc.
  - simpl. by rewrite list_lookup_delete_lt.
Qed.

(** ** A listener that throws *)

(** A loop over quiet listeners up to slot [k], whose listener
    throws. *)
Lemma for_of_until_throw
    (event : DeepLinkEvent) (k : nat) (l : Listener) (e : Thrown)
    (entries : list (option Listener)) :
  entries !! k = Some (Some l) ->
  (forall l', l' ∈ Set_values (take k entries) -> quiet l') ->
  (forall s, throws (behaviour l event s) = Some e) ->
  forall (fuel index : nat) (st : State),
    listeners st = entries ->
    (index <= k)%nat ->
    (k - index < fuel)%nat ->
    for_of_listeners fuel event index st
    = Some (Some e,
            snd (call_listener l event
                   (deliver_all event (Set_values (drop index (take k entries))) st))).
Proof.
  intros Hk Hq Hthrow.
  induction fuel as [|fuel IH]; intros index st Hl Hle Hfuel; [lia|].
  rewrite for_of_listeners_S, Hl.
  destruct (decide (index = k)) as [->|Hne].
  - rewrite Hk. rewrite drop_ge by (rewrite length_take; lia). simpl.
    rewrite deliver_all_nil. unfold call_listener. by rewrite Hthrow.
  - assert (index < k)%nat as Hlt by lia.
    apply lookup_lt_Some in Hk as Hklen.
    destruct (entries !! index) as [x|] eqn:Hi.
    2: { apply lookup_ge_None in Hi. lia. }
    assert (take k entries !! index = Some x) as Hti
      by (by rewrite lookup_take_lt).
    rewrite (drop_S _ _ _ Hti).
    destruct x as [l'|].
    + assert (quiet l') as Hl'.
      { apply Hq, elem_of_Set_values. eauto. }
      unfold call_listener at 1. rewrite Hl'. simpl.
      rewrite IH; [|done|lia|lia]. by rewrite deliver_all_cons.
    + simpl. apply IH; [done|lia|lia].
Qed.

(** X6. When a listener throws while the error of a rejected
    resolution is fanned out, the loop stops there: the listeners
    before it and itself have received the error, no listener after it
    receives anything, and [resolveAndDispatch] ends in a rejection
    with what was thrown. *)
Theorem throwing_listener_starves_the_rest
    (fuel k : nat) (error e : Thrown) (warpLinkError : WarpLinkError.t)
    (l : Listener) (st : State) :
  mapNativeError error = Success warpLinkError ->
  listeners st !! k = Some (Some l) ->
  (forall l', l' ∈ Set_values (take k (listeners st)) -> quiet l') ->
  (forall s, throws (behaviour l (ErrorArm warpLinkError) s) = Some e) ->
  (k < fuel)%nat ->
  exists st',
    resolveAndDispatch_settle fuel (Failure error) st = Some (Some e, st')
    /\ delivered st'
       = delivered st
         ++ List.map (fun x => (x, ErrorArm warpLinkError))
              (Set_values (take k (listeners st)) ++ [l]).
Proof.
  intros Herr Hk Hq Hthrow Hfuel.
  unfold resolveAndDispatch_settle, resolveAndDispatch_catch. rewrite Herr.
  rewrite (for_of_until_throw _ k l e (listeners st) Hk Hq Hthrow fuel 0 st);
    [|done|lia|lia].
  eexists. split; [reflexivity|].
  rewrite delivered_call_listener. simpl.
  by rewrite List.map_app, <- app_assoc.
Qed.

(** ** A conversion that throws on the push path *)

(** X17. On the push path a normalizer that throws is caught: the
    listeners are handed an [E_SERVER_ERROR] event with the TypeError's
    message, as for a rejected resolution.  An error mapping that
    throws is not: no listener is called, and [resolveAndDispatch]
    ends in a rejection with the TypeError, which nobody handles. *)
Theorem conversion_failure_on_the_push_path (fuel : nat) (st : State) :
  (forall result thrown,
     deserializeDeepLink result = Failure thrown ->
     resolveAndDispatch_settle fuel (Success result) st
     = for_of_listeners fuel
         (ErrorArm (WarpLinkError.mk ErrorCodes.E_SERVER_ERROR TypeError_message)) 0 st)
  /\ (forall error thrown,
        mapNativeError error = Failure thrown ->
        resolveAndDispatch_settle fuel (Failure error) st = Some (Some TypeError, st))
  /\ (forall v thrown,
        ToString v = Failure thrown ->
        resolveAndDispatch_settle fuel (Failure (NonError v)) st
        = Some (Some TypeError, st)).
Proof.
  assert (forall error thrown,
            mapNativeError error = Failure thrown ->
            resolveAndDispatch_settle fuel (Failure error) st
            = Some (Some TypeError, st)) as Hmap.
  { intros error thrown Hthrown.
    rewrite (mapNativeError_throws error thrown Hthrown) in Hthrown.
    unfold resolveAndDispatch_settle, resolveAndDispatch_catch. by rewrite Hthrown. }
  split; [|split; [done|]].
  - intros result thrown Hthrown.
    rewrite (deserializeDeepLink_throws result thrown Hthrown) in Hthrown.
    unfold resolveAndDispatch_settle, resolveAndDispatch_catch.
    by rewrite Hthrown, mapNativeError_TypeError.
  - intros v thrown Hthrown. apply (Hmap _ thrown). simpl. by rewrite Hthrown.
Qed.

(** ** Across the Android bridge *)

Lemma assoc_toWritableMap (key : string) (params : list (string * KotlinAny)) :
  is_object (get (JSObject (toWritableMap params)) key) = false.
Proof.
  unfold get, toWritableMap.
  induction params as [|[k v] params IH]; simpl; [done|].
  destruct (String.eqb k key); [by destruct v | apply IH].
Qed.

Lemma deserializeDeepLink_serializeDeepLink (link : SdkDeepLink.t) :
  deserializeDeepLink (serializeDeepLink link) = Success (Some (across_bridge link)).
Proof.
  destruct link as [linkId destination deepLinkUrl params isDeferred matchType confidence].
  unfold deserializeDeepLink, serializeDeepLink, across_bridge. simpl.
  destruct deepLinkUrl, matchType, confidence; reflexivity.
Qed.

(** X7. A link serialized by the Kotlin module and deserialized by
    WarpLink.ts comes out with the same [linkId], [destination],
    [deepLinkUrl], [isDeferred] and [matchConfidence]; its [matchType]
    is kept when it is one of the two literals and becomes [null]
    otherwise; its [customParams] is the map the module wrote. *)
Theorem android_link_round_trip (link : SdkDeepLink.t) :
  deserializeDeepLink (serializeDeepLink link)
  = Success (Some {|
      WarpLinkDeepLink.linkId := SdkDeepLink.linkId link;
      WarpLinkDeepLink.destination := SdkDeepLink.destination link;
      WarpLinkDeepLink.deepLinkUrl := SdkDeepLink.deepLinkUrl link;
      WarpLinkDeepLink.customParams :=
        JSObject (toWritableMap (SdkDeepLink.customParams link));
      WarpLinkDeepLink.isDeferred := SdkDeepLink.isDeferred link;
      WarpLinkDeepLink.matchType :=
        SdkDeepLink.matchType link ≫= fun s => deserializeMatchType (JSString s);
      WarpLinkDeepLink.matchConfidence := SdkDeepLink.matchConfidence link
    |}).
Proof.
  destruct link as [linkId destination deepLinkUrl params isDeferred matchType confidence].
  unfold deserializeDeepLink, serializeDeepLink. simpl.
  destruct deepLinkUrl, matchType, confidence; reflexivity.
Qed.

(** X8. On Android no value of [customParams] reaches JavaScript as
    an object or an array: [toWritableMap] writes strings, numbers,
    booleans and [null] only, turning anything else into its
    [toString()]. *)
Theorem android_customParams_are_flat (link : SdkDeepLink.t) :
  exists result,
    deserializeDeepLink (serializeDeepLink link) = Success (Some result)
    /\ forall key,
         is_object (get (WarpLinkDeepLink.customParams result) key) = false.
Proof.
  eexists. split; [apply deserializeDeepLink_serializeDeepLink|].
  simpl. intros key. apply assoc_toWritableMap.
Qed.

(** X9. [getAttributionResult] end to end on Android.  Before the SDK
    is configured it rejects with [E_NOT_CONFIGURED].  Configured, it
    yields [null] when the SDK holds no attribution or when the
    attribution's [matchType] is not one of the two literals or its
    [matchConfidence] is absent; otherwise the record, whose
    [installId] is always [null], since the serializer never writes
    one. *)
Theorem android_getAttributionResult_end_to_end
    (isConfigured : bool) (attribution : option SdkDeepLink.t) (st : State) :
  fst (getAttributionResult (android_getAttributionResult isConfigured attribution) st)
  = if negb isConfigured
    then
      Failure (Typed (WarpLinkError.mk ErrorCodes.E_NOT_CONFIGURED "SDK not configured"))
    else
      Success
        (attribution ≫= fun link =>
         SdkDeepLink.matchType link ≫= fun s =>
         deserializeMatchType (JSString s) ≫= fun matchType =>
         SdkDeepLink.matchConfidence link ≫= fun matchConfidence =>
         Some {|
           AttributionResult.linkId := SdkDeepLink.linkId link;
           AttributionResult.matchType := matchType;
           AttributionResult.matchConfidence := matchConfidence;
           AttributionResult.isDeferred := SdkDeepLink.isDeferred link;
           AttributionResult.installId := None
         |}).
Proof.
  unfold getAttributionResult, android_getAttributionResult.
  destruct isConfigured; [|reflexivity]. simpl.
  destruct attribution as [link|]; [|reflexivity]. simpl.
  destruct link as [linkId destination deepLinkUrl params isDeferred matchType confidence].
  unfold deserializeAttributionResult, serializeDeepLink. simpl.
  destruct matchType as [s|]; [|reflexivity]. simpl.
  destruct (deserializeMatchType (JSString s)) as [m|]; [|reflexivity]. simpl.
  destruct confidence; reflexivity.
Qed.

(** X10. A failure of the SDK crosses the Android bridge as a typed
    error with its message unchanged: its kind is the SDK error's code
    when that is one of the eight kinds, and [E_SERVER_ERROR] for any
    other code and for any exception that is not an SDK error. *)
Theorem android_failure_end_to_end (url : string) (error : KotlinThrowable) (st : State) :
  fst (handleDeepLink url (Failure (rejectWithError error)) st)
  = Failure
      (Typed
         (match error with
          | SdkWarpLinkError code message =>
              WarpLinkError.mk
                (if bool_decide (code ∈ ErrorCodes.values) then code
                 else ErrorCodes.E_SERVER_ERROR)
                message
          | OtherThrowable message =>
              WarpLinkError.mk ErrorCodes.E_SERVER_ERROR message
          end)).
Proof.
  unfold handleDeepLink. destruct error as [code message|message]; [|reflexivity].
  cbn [fst rejectWithError mapNativeError and_then try_catch]. do 3 f_equal.
  case_bool_decide as Hin.
  - apply list_elem_of_In in Hin.
    assert (isErrorCode (JSString code) = true) as ->
      by (apply isErrorCode_spec; eauto).
    pose proof (known_code_truthy code Hin) as Ht. by rewrite Ht.
  - destruct (isErrorCode (JSString code)) eqn:H.
    + apply isErrorCode_spec in H as (c & [= <-] & Hc).
      by apply list_elem_of_In in Hc.
    + by rewrite andb_false_r.
Qed.

(** ** Single-shot operations *)

(** X11. The object [configure] hands to the native module holds
    [apiKey] and, of the three optional settings, exactly those the
    caller supplied, each with the value supplied: a setting left out
    is no key of the object. *)
Theorem configure_forwards_options (options : WarpLinkConfig) (st : State) :
  well_formed_key (apiKey options) ->
  exists config,
    calls (snd (configure options st)) = calls st ++ [CallConfigure config]
    /\ assoc "apiKey" config = Some (JSString (apiKey options))
    /\ assoc "apiEndpoint" config = JSString <$> apiEndpoint options
    /\ assoc "debugLogging" config = JSBoolean <$> debugLogging options
    /\ assoc "matchWindowHours" config = JSNumber <$> matchWindowHours options
    /\ (length config
        = 1 + length (option_list (apiEndpoint options))
          + length (option_list (debugLogging options))
          + length (option_list (matchWindowHours options)))%nat.
Proof.
  intros Hwf%API_KEY_PATTERN_spec. unfold configure. rewrite Hwf.
  assert (ToBoolean (JSString (apiKey options)) = true) as ->.
  { simpl. destruct (String.eqb_spec (apiKey options) "") as [He|]; [|done].
    by rewrite He in Hwf. }
  simpl. eexists. split; [reflexivity|].
  destruct (apiEndpoint options), (debugLogging options), (matchWindowHours options);
    repeat split.
Qed.

Lemma try_catch_classified {A : Type} (body : Outcome A Thrown) :
  classified (try_catch body).
Proof.
  destruct body as [a|error]; [done|]. unfold try_catch.
  destruct (mapNativeError error) as [e|thrown] eqn:He; simpl.
  - by apply (mapNativeError_code_known error).
  - by apply (mapNativeError_throws error).
Qed.

Lemma try_catch_typed_rejection {A : Type} (body : Outcome A Thrown) :
  (forall error, body = Failure error -> exists e, mapNativeError error = Success e) ->
  typed (try_catch body).
Proof.
  destruct body as [a|error]; [done|]. intros H.
  destruct (H error) as [e He]; [done|]. unfold try_catch. rewrite He. simpl.
  by apply (mapNativeError_code_known error).
Qed.

(** X12. A rejection of [handleDeepLink], [checkDeferredDeepLink],
    [getAttributionResult] or [isConfigured] is a [WarpLinkError] of
    one of the eight kinds, or the TypeError that [mapNativeError]
    threw inside the [catch] block.  It is a [WarpLinkError] whenever
    the native promise does not reject with a value [String] cannot
    convert: for every fulfilled promise (a normalizer that throws is
    caught and mapped to [E_SERVER_ERROR]) and for every rejection with
    an [Error] instance.  It is the bare TypeError when the native
    promise rejects with a value that is no [Error] and that [String]
    cannot convert.  A rejection of [getInitialDeepLink] is always a
    [WarpLinkError] of one of the eight kinds: the outer [catch] maps
    what the inner one let through. *)
Theorem single_shot_rejections_are_typed
    (url : string) (outcome : Settlement) (answer : Outcome bool Thrown)
    (resolver : string -> Settlement) (st : State) :
  (classified (fst (handleDeepLink url outcome st))
   /\ classified (fst (checkDeferredDeepLink outcome st))
   /\ classified (fst (getAttributionResult outcome st))
   /\ classified (fst (isConfigured answer st)))
  /\ ((forall v, outcome = Failure (NonError v) -> exists s, ToString v = Success s) ->
      typed (fst (handleDeepLink url outcome st))
      /\ typed (fst (checkDeferredDeepLink outcome st))
      /\ typed (fst (getAttributionResult outcome st)))
  /\ ((forall v, answer = Failure (NonError v) -> exists s, ToString v = Success s) ->
      typed (fst (isConfigured answer st)))
  /\ (forall v thrown,
        ToString v = Failure thrown ->
        fst (handleDeepLink url (Failure (NonError v)) st) = Failure (Raw TypeError)
        /\ fst (checkDeferredDeepLink (Failure (NonError v)) st) = Failure (Raw TypeError)
        /\ fst (getAttributionResult (Failure (NonError v)) st) = Failure (Raw TypeError)
        /\ fst (isConfigured (Failure (NonError v)) st) = Failure (Raw TypeError))
  /\ (forall result thrown,
        deserializeDeepLink result = Failure thrown ->
        fst (handleDeepLink url (Success result) st)
        = Failure (Typed (WarpLinkError.mk ErrorCodes.E_SERVER_ERROR TypeError_message)))
  /\ typed (fst (getInitialDeepLink resolver st)).
Proof.
  assert (forall error : Thrown,
            (forall v, error = NonError v -> exists s, ToString v = Success s) ->
            exists e, mapNativeError error = Success e) as Hmapped.
  { intros [message code|v] Hv; [by eexists|].
    destruct (Hv v) as [s Hs]; [done|]. simpl. rewrite Hs. by eexists. }
  assert (forall (A : Type) (k : JSValue -> Outcome A Thrown),
            (forall result thrown, k result = Failure thrown -> thrown = TypeError) ->
            (forall v, outcome = Failure (NonError v) -> exists s, ToString v = Success s) ->
            typed (try_catch (and_then outcome k))) as Hnormalized.
  { intros A k Hk Hv. apply try_catch_typed_rejection. intros error.
    destruct outcome as [result|error']; cbn [and_then].
    - intros ->%Hk. by eexists.
    - intros [= ->]. apply Hmapped. intros v ->. by apply Hv. }
  split; [repeat split; apply try_catch_classified|].
  split; [|split; [|split; [|split]]].
  - intros Hv. unfold handleDeepLink, checkDeferredDeepLink, getAttributionResult.
    cbn [fst]. repeat split; apply Hnormalized; try done;
      [apply deserializeDeepLink_throws | apply deserializeDeepLink_throws
      | apply deserializeAttributionResult_throws].
  - intros Hv. unfold isConfigured. cbn [fst]. apply try_catch_typed_rejection.
    intros error ->. apply Hmapped. intros v [= ->]. by apply Hv.
  - intros v thrown Hthrown.
    rewrite (ToString_throws v thrown Hthrown) in Hthrown.
    unfold handleDeepLink, checkDeferredDeepLink, getAttributionResult, isConfigured.
    cbn [fst and_then try_catch mapNativeError]. rewrite Hthrown. by cbn [and_then].
  - intros result thrown Hthrown.
    rewrite (deserializeDeepLink_throws result thrown Hthrown) in Hthrown.
    unfold handleDeepLink. cbn [fst and_then]. by rewrite Hthrown.
  - destruct (getInitialDeepLink_consumes resolver st) as (-> & _ & _).
    destruct (captured (native st)) as [u|]; [|done].
    pose proof (try_catch_classified (and_then (resolver u) deserializeDeepLink)) as Hc.
    destruct (try_catch (and_then (resolver u) deserializeDeepLink))
      as [link|[e|thrown]]; [done| |]; simpl in Hc.
    + unfold try_catch, thrown_of, throw_WarpLinkError.
      rewrite mapNativeError_ErrorInstance. simpl.
      assert (isErrorCode (JSString (WarpLinkError.code e)) = true) as ->
        by (apply isErrorCode_spec; eauto).
      pose proof (known_code_truthy _ Hc) as Ht. simpl in Ht. by rewrite Ht.
    + subst thrown. unfold try_catch, thrown_of. rewrite mapNativeError_TypeError.
      simpl. tauto.
Qed.

(** X13. A key that [configure] accepts has exactly 40 characters, and
    nothing can follow it: the pattern is anchored at both ends, so an
    accepted key with anything appended (a newline, a space) is
    refused. *)
Theorem accepted_key_is_exact (key : string) :
  RegExp_test API_KEY_PATTERN key = true ->
  String.length key = 40%nat
  /\ forall extra, RegExp_test API_KEY_PATTERN (key +:+ extra) = true -> extra = "".
Proof.
  assert (forall k, RegExp_test API_KEY_PATTERN k = true -> String.length k = 40%nat)
    as Hlen.
  { intros k (env & suffix & Henv & -> & Hs & _)%API_KEY_PATTERN_spec.
    rewrite <- !list_ascii_of_string_length, !list_ascii_of_string_app, !length_app.
    rewrite !list_ascii_of_string_length, Hs.
    by destruct Henv as [-> | ->]. }
  intros Hkey. split; [by apply Hlen|]. intros extra Hext.
  apply Hlen in Hkey. apply Hlen in Hext.
  rewrite <- list_ascii_of_string_length, list_ascii_of_string_app, length_app in Hext.
  rewrite !list_ascii_of_string_length in Hext.
  destruct extra; [done|]. simpl in Hext. lia.
Qed.

(** ** The iOS module and the JavaScript subscription *)

Lemma same_wiring_in_step (st st' : State) :
  same_wiring st st' -> ios_in_step st -> ios_in_step st'.
Proof.
  intros (He & Hl & Hn & Ho) [Hc [p Hp]]. split; [by apply (consistent_ext st)|].
  unfold active_handlers in *. rewrite He, Hn. rewrite Hp in Ho.
  destruct (native st') as [u|p' h n]; [done|]. injection Ho as -> ->. eauto.
Qed.

Lemma in_step_onDeepLink (l : Listener) (st : State) :
  ios_in_step st -> ios_in_step (onDeepLink l st).
Proof.
  intros [Hc [p Hp]]. split; [by apply consistent_onDeepLink|].
  destruct Hc as [_ _ Hh]. unfold active_handlers in *. unfold onDeepLink.
  destruct (emitter st) as [em|] eqn:Hem; simpl;
    destruct (nativeSubscription st) as [id|] eqn:Hns; simpl;
    rewrite ?Hem, ?Hns; simpl; try done.
  - rewrite Hp. by eexists.
  - rewrite Hp, Hh. by eexists.
  - rewrite Hp. by eexists.
Qed.

Lemma in_step_unsubscribe (l : Listener) (st : State) :
  ios_in_step st -> ios_in_step (unsubscribe l st).
Proof.
  intros [Hc [p Hp]]. split; [by apply consistent_unsubscribe|].
  destruct Hc as [_ _ Hh]. unfold active_handlers in *. unfold unsubscribe. simpl.
  destruct (nativeSubscription st) as [id|] eqn:Hns.
  - destruct (Nat.eqb _ 0).
    + unfold remove; simpl. destruct (emitter st) as [em|] eqn:Hem; [|done].
      rewrite Hh. rewrite bool_decide_true by (by apply list_elem_of_singleton).
      simpl. rewrite Hp, Hh. simpl.
      rewrite filter_cons_False by (by intros ?). simpl. eauto.
    + simpl. rewrite Hns, Hp. eauto.
  - simpl. rewrite Hns, Hp. eauto.
Qed.

Lemma in_step_effects (es : list Effect) (st : State) :
  ios_in_step st -> ios_in_step (fold_left run_effect es st).
Proof.
  revert st. induction es as [|e es IH]; intros st H; simpl; [done|].
  apply IH. destruct e; [by apply in_step_onDeepLink | by apply in_step_unsubscribe].
Qed.

Lemma in_step_for_of (fuel : nat) (event : DeepLinkEvent) :
  forall (index : nat) (st : State) (r : option Thrown) (st' : State),
    ios_in_step st ->
    for_of_listeners fuel event index st = Some (r, st') ->
    ios_in_step st'.
Proof.
  induction fuel as [|fuel IH]; intros index st r st' H; [done|].
  rewrite for_of_listeners_S.
  destruct (listeners st !! index) as [[l|]|] eqn:Hi.
  - assert (ios_in_step (snd (call_listener l event st))) as H'.
    { unfold call_listener. simpl. apply in_step_effects.
      by apply (same_wiring_in_step st). }
    destruct (call_listener l event st) as [[e|] st1]; simpl in H'.
    + intros ?; by simplify_eq.
    + by apply IH.
  - by apply IH.
  - intros ?; by simplify_eq.
Qed.

Lemma in_step_settle (fuel i : nat) (outcome : Settlement) (st st' : State) :
  ios_in_step st -> settle fuel i outcome st = Some st' -> ios_in_step st'.
Proof.
  intros H. unfold settle. destruct (inflight st !! i); [|intros ?; by simplify_eq].
  fold (taken i st).
  assert (ios_in_step (taken i st)) as H1 by (by apply (same_wiring_in_step st)).
  generalize dependent (taken i st). intros st1 H1.
  destruct (resolveAndDispatch_settle fuel outcome st1) as [[r st2]|] eqn:Hs; [|done].
  simpl. intros ?; simplify_eq.
  apply (resolveAndDispatch_settle_preserves ios_in_step fuel outcome st1 r st');
    [|done|done].
  intros event s0 r' s'. apply in_step_for_of.
Qed.

Lemma same_wiring_emit (url : string) (st : State) : same_wiring st (emit url st).
Proof.
  destruct (emit_module_variables url st) as (He & Hl & Hn).
  unfold same_wiring. by rewrite native_emit.
Qed.

Lemma in_step_step (st : State) (op : Op) (st' : State) :
  ios_in_step st -> step st op = Some st' -> ios_in_step st'.
Proof.
  intros H. destruct op; simpl.
  - intros ?; simplify_eq. by apply in_step_onDeepLink.
  - intros ?; simplify_eq. by apply in_step_unsubscribe.
  - intros ?; simplify_eq. unfold incomingURL.
    destruct (native st) as [u|p [|] n] eqn:Hn;
      try (apply (same_wiring_in_step st); [apply same_wiring_emit | done]).
    apply (same_wiring_in_step st); [|done]. unfold same_wiring. simpl.
    by rewrite Hn.
  - by apply in_step_settle.
  - intros ?; simplify_eq. unfold configure. destruct (_ || _); [done|].
    by apply (same_wiring_in_step st).
  - intros ?; simplify_eq. by apply (same_wiring_in_step st).
  - intros ?; simplify_eq. by apply (same_wiring_in_step st).
  - intros ?; simplify_eq. by apply (same_wiring_in_step st).
  - intros ?; simplify_eq. by apply (same_wiring_in_step st).
  - intros ?; simplify_eq. apply (same_wiring_in_step st); [|done].
    unfold getInitialDeepLink, handleDeepLink, same_wiring.
    destruct (native st) as [[u|]|[u|] h n]; cbn [getInitialURL]; try done;
      by destruct (try_catch _).
Qed.

Lemma in_step_run (ops : list Op) :
  forall (st st' : State),
    ios_in_step st -> run ops st = Some st' -> ios_in_step st'.
Proof.
  induction ops as [|op ops IH]; intros st st' H; simpl.
  - intros ?; by simplify_eq.
  - destruct (step st op) as [st1|] eqn:Hstep; [|done].
    apply IH. by apply (in_step_step st op).
Qed.

(** X14. On iOS, whatever has happened since start-up, a URL handed
    to the module is pushed to JavaScript, starting exactly one
    resolution, when a listener is subscribed, and is kept for
    [getInitialDeepLink], with no resolver call, when none is: the
    Swift module's [hasListeners] is set exactly while the underlying
    subscription exists. *)
Theorem ios_pushes_iff_subscribed
    (ops : list Op) (pending : option string) (st : State) (url : string) :
  run ops (initial (IOSModule pending false 0)) = Some st ->
  (nativeSubscription st <> None ->
   incomingURL url st = resolveAndDispatch_call url st)
  /\ (nativeSubscription st = None ->
      captured (native (incomingURL url st)) = Some url
      /\ calls (incomingURL url st) = calls st
      /\ inflight (incomingURL url st) = inflight st)
  /\ (nativeSubscription st <> None <-> Set_values (listeners st) <> []).
Proof.
  intros Hrun.
  assert (ios_in_step st) as [Hc [p Hp]].
  { apply (in_step_run ops _ _) in Hrun; [done|].
    split; [apply consistent_initial | by exists pending]. }
  destruct Hc as [_ Hsub Hh]. unfold incomingURL. rewrite Hp.
  split; [|split].
  - intros Hns. rewrite bool_decide_true by done.
    destruct (nativeSubscription st) as [id|]; [|done].
    by apply (emit_one_handler url st id).
  - intros Hns. rewrite bool_decide_false by (by intros ?). by rewrite Hns.
  - by rewrite Hsub.
Qed.

(** ** More on the Android bridge and on the order of the set *)

(** X15. On Android a resolution yields [null] exactly when the SDK
    found no link: a link the SDK returns always comes out as a link,
    from [handleDeepLink] and [checkDeferredDeepLink] alike, and as a
    push event it is always delivered rather than dropped. *)
Theorem android_null_iff_no_link
    (url : string) (deepLink : option SdkDeepLink.t) (st : State) :
  fst (handleDeepLink url (android_resolve_success deepLink) st)
  = Success (across_bridge <$> deepLink)
  /\ fst (checkDeferredDeepLink (android_resolve_success deepLink) st)
     = Success (across_bridge <$> deepLink)
  /\ event_of (android_resolve_success deepLink)
     = DeepLinkArm <$> (across_bridge <$> deepLink).
Proof.
  unfold handleDeepLink, checkDeferredDeepLink, event_of, android_resolve_success.
  destruct deepLink as [link|]; [|done].
  cbn [fst fmap option_fmap option_map and_then].
  by rewrite deserializeDeepLink_serializeDeepLink.
Qed.

(** X16. A listener that is unsubscribed and subscribed again moves
    to the back of the set: it is then the last to be called, behind
    the listeners that were registered after it. *)
Theorem resubscribing_moves_to_the_back (l : Listener) (st : State) :
  Set_values (listeners (onDeepLink l (unsubscribe l st)))
  = filter (fun x => x ≠ l) (Set_values (listeners st)) ++ [l].
Proof.
  rewrite listeners_onDeepLink, Set_values_add, listeners_unsubscribe.
  rewrite Set_values_delete. rewrite bool_decide_false; [done|].
  by intros [Hne _]%list_elem_of_filter.
Qed.

End Bridge.

(** * Closed instances *)

(** ** The key format on the documented examples *)

Example key_live_accepted :
  RegExp_test API_KEY_PATTERN "wl_live_abcdefghijklmnopqrstuvwxyz012345" = true.
Proof. reflexivity. Qed.

Example key_test_accepted :
  RegExp_test API_KEY_PATTERN "wl_test_ABCDEFGHIJKLMNOPQRSTUVWXYZ012345" = true.
Proof. reflexivity. Qed.

Example key_wrong_segment_rejected :
  RegExp_test API_KEY_PATTERN "wl_prod_abcdefghijklmnopqrstuvwxyz012345" = false.
Proof. reflexivity. Qed.

Example key_31_rejected :
  RegExp_test API_KEY_PATTERN "wl_live_abcdefghijklmnopqrstuvwxyz01234" = false.
Proof. reflexivity. Qed.

Example key_33_rejected :
  RegExp_test API_KEY_PATTERN "wl_live_abcdefghijklmnopqrstuvwxyz0123456" = false.
Proof. reflexivity. Qed.

Example key_special_character_rejected :
  RegExp_test API_KEY_PATTERN "wl_live_abcdefghijklmnopqrstuvwxyz01234!" = false.
Proof. reflexivity. Qed.

(** ** Normalizer and error mapping *)

(** The cases of the test suite. *)
Example empty_object_defaults :
  deserializeDeepLink decimal_elided V8_message (JSObject [])
  = Success (Some {| WarpLinkDeepLink.linkId := "";
                     WarpLinkDeepLink.destination := "";
                     WarpLinkDeepLink.deepLinkUrl := None;
                     WarpLinkDeepLink.customParams := JSObject [];
                     WarpLinkDeepLink.isDeferred := false;
                     WarpLinkDeepLink.matchType := None;
                     WarpLinkDeepLink.matchConfidence := None |}).
Proof. reflexivity. Qed.

Example mock_link_deserialized :
  deserializeDeepLink decimal_elided V8_message MOCK_DEEP_LINK
  = Success (Some mock_link).
Proof. reflexivity. Qed.

Example attribution_zero_confidence :
  deserializeAttributionResult decimal_elided V8_message
    (JSObject [ ("linkId", JSString "lnk_zero");
                ("matchType", JSString "probabilistic");
                ("matchConfidence", JSNumber 0%float);
                ("isDeferred", JSBoolean true);
                ("installId", JSNull) ])
  = Success (Some {| AttributionResult.linkId := "lnk_zero";
                     AttributionResult.matchType := MatchType.probabilistic;
                     AttributionResult.matchConfidence := 0%float;
                     AttributionResult.isDeferred := true;
                     AttributionResult.installId := None |}).
Proof. reflexivity. Qed.

Example attribution_confidence_not_a_number :
  deserializeAttributionResult decimal_elided V8_message
    (JSObject [ ("linkId", JSString "lnk_bad_conf");
                ("matchType", JSString "deterministic");
                ("matchConfidence", JSString "high");
                ("isDeferred", JSBoolean true) ])
  = Success None.
Proof. reflexivity. Qed.

Example network_error_kept :
  mapNativeError decimal_elided V8_message
    (ErrorInstance "Network error" (JSString "E_NETWORK_ERROR"))
  = Success (WarpLinkError.mk ErrorCodes.E_NETWORK_ERROR "Network error").
Proof. reflexivity. Qed.

Example unknown_code_is_server_error :
  mapNativeError decimal_elided V8_message
    (ErrorInstance "Something went wrong" (JSString "UNKNOWN_CODE"))
  = Success (WarpLinkError.mk ErrorCodes.E_SERVER_ERROR "Something went wrong").
Proof. reflexivity. Qed.

(** What [String] makes of arrays and of objects. *)
Example String_of_array :
  ToString decimal_elided V8_message
    (JSArray [JSString "a"; JSNull; JSArray [JSBoolean true; JSUndefined]; JSObject []])
  = Success "a,,true,,[object Object]".
Proof. reflexivity. Qed.

Example String_of_own_toString :
  ToString decimal_elided V8_message own_toString = Failure (TypeError V8_message)
  /\ ToString decimal_elided V8_message (JSArray [JSString "a"; own_toString])
     = Failure (TypeError V8_message).
Proof. split; reflexivity. Qed.

(** A normalizer that throws, and an error mapping that throws, as the
    single-shot operations and the push path pass them on. *)
Example unconvertible_linkId_rejects_typed :
  fst (handleDeepLink decimal_elided V8_message "https://aplnk.to/abc123"
         (Success (JSObject [("linkId", own_toString)]))
         (initial (AndroidModule None)))
  = Failure (Typed (WarpLinkError.mk ErrorCodes.E_SERVER_ERROR V8_message)).
Proof. reflexivity. Qed.

Example unconvertible_rejection_rejects_raw :
  fst (handleDeepLink decimal_elided V8_message "https://aplnk.to/abc123"
         (Failure (NonError own_toString)) (initial (AndroidModule None)))
  = Failure (Raw (TypeError V8_message)).
Proof. reflexivity. Qed.

Example unconvertible_linkId_pushes_an_error :
  delivered
    <$> settle decimal_elided V8_message all_quiet 3 0
          (Success (JSObject [("linkId", own_toString)])) two_listeners_one_event
  = Some
      [ (0, ErrorArm (WarpLinkError.mk ErrorCodes.E_SERVER_ERROR V8_message));
        (1, ErrorArm (WarpLinkError.mk ErrorCodes.E_SERVER_ERROR V8_message)) ].
Proof. reflexivity. Qed.

Example unconvertible_rejection_reaches_nobody :
  resolveAndDispatch_settle decimal_elided V8_message all_quiet 3
    (Failure (NonError own_toString)) two_listeners
  = Some (Some (TypeError V8_message), two_listeners).
Proof. reflexivity. Qed.

(** C5 fails on a [linkId] that is present and not a string: it is
    converted with [String], not replaced by the empty string; and it
    fails on a [linkId] that [String] cannot convert, where the
    function throws. *)
Lemma coerced_linkId_counterexample :
  (exists link,
     deserializeDeepLink decimal_elided V8_message (JSObject [("linkId", JSBoolean true)])
     = Success (Some link)
     /\ WarpLinkDeepLink.linkId link = "true"
     /\ WarpLinkDeepLink.linkId link <> "")
  /\ is_object (JSObject [("linkId", own_toString)]) = true
  /\ deserializeDeepLink decimal_elided V8_message (JSObject [("linkId", own_toString)])
     = Failure (TypeError V8_message).
Proof. split; [eexists; split; [reflexivity|]; by split | by split]. Qed.

Lemma zero_confidence_witness :
  exists link,
    deserializeDeepLink decimal_elided V8_message
      (JSObject [("linkId", JSString "link-dl-1"); ("matchConfidence", JSNumber 0%float)])
    = Success (Some link)
    /\ WarpLinkDeepLink.matchConfidence link = Some 0%float.
Proof.
  destruct (deserializeDeepLink_zero_confidence decimal_elided V8_message
              (JSObject [("linkId", JSString "link-dl-1");
                         ("matchConfidence", JSNumber 0%float)]))
    as (_ & _ & Hlink); [reflexivity | reflexivity |].
  apply (Hlink "link-dl-1" "undefined" "undefined"); reflexivity.
Defined.

(** C7 fails on a payload whose [matchConfidence] is [0.0] and whose
    [linkId] [String] cannot convert: no link is returned, the
    function throws. *)
Lemma zero_confidence_counterexample :
  get (JSObject [("linkId", own_toString); ("matchConfidence", JSNumber 0%float)])
    "matchConfidence"
  = JSNumber 0%float
  /\ deserializeDeepLink decimal_elided V8_message
       (JSObject [("linkId", own_toString); ("matchConfidence", JSNumber 0%float)])
     = Failure (TypeError V8_message).
Proof. split; reflexivity. Qed.

(** C4 fails on a rejected value that is not an [Error]: its [code]
    names a known kind and its [message] is ["x"], yet the typed error
    is [E_SERVER_ERROR] with the message ["[object Object]"]. *)
Lemma plain_object_rejection_counterexample :
  get plain_error_object "code" = JSString ErrorCodes.E_NETWORK_ERROR
  /\ get plain_error_object "message" = JSString "x"
  /\ exists e,
       mapNativeError decimal_elided V8_message (NonError plain_error_object)
       = Success e
       /\ e = WarpLinkError.mk ErrorCodes.E_SERVER_ERROR "[object Object]"
       /\ WarpLinkError.code e <> ErrorCodes.E_NETWORK_ERROR
       /\ WarpLinkError.message e <> "x".
Proof. split; [done|]. split; [done|]. eexists. split; [reflexivity|]. by repeat split. Qed.

(** ** The subscription *)

Lemma subscription_iff_listeners_witness :
  Set_values
    (listeners
       (fold_left run_effect [DoOnDeepLink 0; DoOnDeepLink 1; DoUnsubscribe 0]
          (initial (IOSModule None false 0))))
  = [1]
  /\ nativeSubscription
       (unsubscribe 1
          (fold_left run_effect [DoOnDeepLink 0; DoOnDeepLink 1; DoUnsubscribe 0]
             (initial (IOSModule None false 0))))
     = None
  /\ active_handlers
       (unsubscribe 1
          (fold_left run_effect [DoOnDeepLink 0; DoOnDeepLink 1; DoUnsubscribe 0]
             (initial (IOSModule None false 0))))
     = [].
Proof.
  destruct (subscription_iff_listeners (IOSModule None false 0)
              [DoOnDeepLink 0; DoOnDeepLink 1; DoUnsubscribe 0])
    as (_ & Hset & _ & _ & _ & Hlast & _).
  split; [exact Hset|]. destruct (Hlast 1 Hset) as (_ & Hnone & Hhandlers).
  by split.
Defined.

(** ** Push events *)

Lemma no_match_is_silent_witness :
  is_object JSNull = false
  /\ resolveAndDispatch_settle decimal_elided V8_message all_quiet 3 (Success JSNull)
    two_listeners_one_event
  = Some (None, two_listeners_one_event)
  /\ exists st',
       settle decimal_elided V8_message all_quiet 3 0 (Success JSNull)
         two_listeners_one_event
       = Some st'
       /\ delivered st' = delivered two_listeners_one_event
       /\ listeners st' = listeners two_listeners_one_event
       /\ nativeSubscription st' = nativeSubscription two_listeners_one_event
       /\ emitter st' = emitter two_listeners_one_event
       /\ native st' = native two_listeners_one_event
       /\ calls st' = calls two_listeners_one_event.
Proof.
  apply (no_match_is_silent decimal_elided V8_message all_quiet 3 0 JSNull
           two_listeners_one_event "https://aplnk.to/abc123"); reflexivity.
Defined.

(** C1 fails when the resolution settles with [null]: two listeners are
    in the set, the resolution of the push event is in flight, and its
    settling delivers nothing to either. *)
Lemma push_event_no_match_counterexample :
  Set_values (listeners two_listeners_one_event) = [0; 1]
  /\ inflight two_listeners_one_event = ["https://aplnk.to/abc123"]
  /\ delivered
       <$> settle decimal_elided V8_message all_quiet 3 0 (Success JSNull)
             two_listeners_one_event
     = Some [].
Proof. repeat split. Qed.

Lemma push_event_fanout_witness :
  calls (emit "https://aplnk.to/abc123" two_listeners)
  = calls two_listeners ++ [CallHandleDeepLink "https://aplnk.to/abc123"]
  /\ (exists st2,
        settle decimal_elided V8_message all_quiet 3 0 (Success MOCK_DEEP_LINK)
          two_listeners_one_event
        = Some st2
        /\ delivered st2 = [(0, DeepLinkArm mock_link); (1, DeepLinkArm mock_link)])
  /\ (exists st2,
        settle decimal_elided V8_message all_quiet 3 0 (Failure network_error)
          two_listeners_one_event
        = Some st2
        /\ delivered st2
           = [ (0, ErrorArm (WarpLinkError.mk ErrorCodes.E_NETWORK_ERROR "Network error"));
               (1, ErrorArm (WarpLinkError.mk ErrorCodes.E_NETWORK_ERROR "Network error")) ])
  /\ (exists st2,
        settle decimal_elided V8_message all_quiet 3 0 (Success JSNull)
          two_listeners_one_event
        = Some st2
        /\ delivered st2 = []).
Proof.
  destruct (push_event_fanout decimal_elided V8_message all_quiet two_listeners
              "https://aplnk.to/abc123" two_listeners_one_event 0 3)
    as ((Hcalls & _) & _ & Hlink & Herror & Hnull).
  - repeat apply consistent_onDeepLink. apply consistent_initial.
  - discriminate.
  - apply consistent_emit. repeat apply consistent_onDeepLink.
    apply consistent_initial.
  - reflexivity.
  - intros l _ event st. reflexivity.
  - simpl. lia.
  - split; [exact Hcalls|]. split; [|split].
    + destruct (Hlink MOCK_DEEP_LINK mock_link) as (st2 & Hs & Hd & _); [reflexivity|].
      exists st2. split; [exact Hs | exact Hd].
    + destruct (Herror network_error
                  (WarpLinkError.mk ErrorCodes.E_NETWORK_ERROR "Network error"))
        as (st2 & Hs & Hd & _); [reflexivity|].
      exists st2. split; [exact Hs | exact Hd].
    + destruct (Hnull JSNull) as (st2 & Hs & Hd & _); [reflexivity|].
      exists st2. split; [exact Hs | exact Hd].
Defined.

(** A listener that throws while a link is fanned out sends the loop
    into the [catch] block: the listeners before it, and itself, get
    the link and then the error; the one after it gets the error only. *)
Example throwing_listener_both_arms :
  delivered
    <$> settle decimal_elided V8_message second_throws 5 0 (Success MOCK_DEEP_LINK)
          (emit "https://aplnk.to/abc123" (onDeepLink 2 two_listeners))
  = Some
      [ (0, DeepLinkArm mock_link); (1, DeepLinkArm mock_link);
        (0, ErrorArm (WarpLinkError.mk ErrorCodes.E_SERVER_ERROR "listener failed"));
        (1, ErrorArm (WarpLinkError.mk ErrorCodes.E_SERVER_ERROR "listener failed"));
        (2, ErrorArm (WarpLinkError.mk ErrorCodes.E_SERVER_ERROR "listener failed")) ].
Proof. reflexivity. Qed.

(** ** Re-entrant listeners *)


(** A listener subscribed during the fan-out is called in it. *)
Example subscribed_during_fanout_is_visited :
  for_of_listeners first_adds_third 4 (DeepLinkArm mock_link) 0 two_listeners
  = Some (None,
          deliver_all (DeepLinkArm mock_link) [0; 1; 2] (onDeepLink 2 two_listeners)).
Proof. reflexivity. Qed.


Lemma Set_delete_last (l : Listener) (k : nat) :
  Set_delete l (replicate k None ++ [Some l]) = replicate (S k) None.
Proof.
  unfold Set_delete. induction k as [|k IH]; simpl.
  - by rewrite bool_decide_true.
  - by rewrite IH.
Qed.

Lemma Set_values_replicate_None (k : nat) : Set_values (replicate k None) = [].
Proof. induction k as [|k IH]; simpl; done. Qed.

(** A listener that unsubscribes and subscribes itself again moves to a
    new last slot each time it is called: the loop never ends. *)
Lemma resubscribing_listener_never_ends (fuel : nat) :
  forall (index : nat) (st : State) (l : Listener) (event : DeepLinkEvent),
    listeners st = replicate index None ++ [Some l] ->
    for_of_listeners resubscribes_itself fuel event index st = None.
Proof.
  induction fuel as [|fuel IH]; intros index st l event Hl; [done|].
  rewrite for_of_listeners_S.
  assert (listeners st !! index = Some (Some l)) as ->.
  { rewrite Hl, lookup_app_r by (by rewrite length_replicate).
    by rewrite length_replicate, Nat.sub_diag. }
  unfold call_listener, resubscribes_itself. cbn [throws effects fold_left run_effect].
  apply (IH (S index) _ l).
  rewrite listeners_onDeepLink, listeners_unsubscribe. cbn [record_delivery listeners].
  rewrite Hl, Set_delete_last. unfold Set_add.
  rewrite Set_values_replicate_None.
  rewrite bool_decide_false; [done | apply not_elem_of_nil].
Qed.

(** ** Cold-start retrieval *)



(** ** Further properties at closed instances *)

Lemma onDeepLink_already_registered_witness :
  Set_values (listeners two_listeners) = [0; 1]
  /\ onDeepLink 0 two_listeners = two_listeners.
Proof.
  split; [reflexivity|]. apply onDeepLink_already_registered.
  - repeat apply consistent_onDeepLink. apply consistent_initial.
  - apply elem_of_cons. by left.
Defined.

Lemma subscribe_then_unsubscribe_witness :
  Set_values (listeners (unsubscribe 2 (onDeepLink 2 two_listeners)))
  = Set_values (listeners two_listeners)
  /\ nativeSubscription (unsubscribe 2 (onDeepLink 2 two_listeners))
     = nativeSubscription two_listeners.
Proof.
  destruct (subscribe_then_unsubscribe 2 two_listeners) as (H1 & H2 & _).
  - repeat apply consistent_onDeepLink. apply consistent_initial.
  - intros H. repeat (apply elem_of_cons in H as [H|H]; [done|]).
    by apply not_elem_of_nil in H.
  - by split.
Defined.

Lemma delivery_follows_the_set_at_settlement_witness :
  delivered
    <$> settle decimal_elided V8_message all_quiet 5 0 (Success MOCK_DEEP_LINK)
          (onDeepLink 2 two_listeners_one_event)
  = Some [ (0, DeepLinkArm mock_link); (1, DeepLinkArm mock_link);
           (2, DeepLinkArm mock_link) ]
  /\ delivered
       <$> settle decimal_elided V8_message all_quiet 5 0 (Success MOCK_DEEP_LINK)
             (unsubscribe 0 two_listeners_one_event)
     = Some [ (1, DeepLinkArm mock_link) ].
Proof.
  destruct (delivery_follows_the_set_at_settlement decimal_elided V8_message all_quiet
              5 0 (Success MOCK_DEEP_LINK) (DeepLinkArm mock_link)
              "https://aplnk.to/abc123" 2 two_listeners_one_event) as (H1 & _ & _).
  - intros l event st. reflexivity.
  - reflexivity.
  - reflexivity.
  - simpl. lia.
  - destruct (delivery_follows_the_set_at_settlement decimal_elided V8_message
                all_quiet 5 0 (Success MOCK_DEEP_LINK) (DeepLinkArm mock_link)
                "https://aplnk.to/abc123" 0 two_listeners_one_event) as (_ & _ & H2).
    + intros l event st. reflexivity.
    + reflexivity.
    + reflexivity.
    + simpl. lia.
    + split; [exact H1 | exact H2].
Defined.

Lemma deliveries_in_settlement_order_witness :
  exists st',
    settle decimal_elided V8_message all_quiet 3 1 (Failure network_error) two_in_flight
      ≫= settle decimal_elided V8_message all_quiet 3 0 (Success MOCK_DEEP_LINK)
    = Some st'
    /\ delivered st'
       = [ (0, ErrorArm (WarpLinkError.mk ErrorCodes.E_NETWORK_ERROR "Network error"));
           (1, ErrorArm (WarpLinkError.mk ErrorCodes.E_NETWORK_ERROR "Network error"));
           (0, DeepLinkArm mock_link); (1, DeepLinkArm mock_link) ].
Proof.
  destruct (deliveries_in_settlement_order decimal_elided V8_message all_quiet 3 0 1
              (Success MOCK_DEEP_LINK) (Failure network_error)
              (DeepLinkArm mock_link)
              (ErrorArm (WarpLinkError.mk ErrorCodes.E_NETWORK_ERROR "Network error"))
              "https://aplnk.to/abc123" "https://aplnk.to/def456" two_in_flight)
    as (st' & Hrun & Hd & _).
  - intros l event st. reflexivity.
  - lia.
  - reflexivity.
  - reflexivity.
  - reflexivity.
  - reflexivity.
  - simpl. lia.
  - exists st'. split; [exact Hrun | exact Hd].
Defined.

Lemma throwing_listener_starves_the_rest_witness :
  exists st',
    resolveAndDispatch_settle decimal_elided V8_message second_always_throws 2
      (Failure network_error) (onDeepLink 2 two_listeners)
    = Some (Some (NonError (JSString "boom")), st')
    /\ delivered st'
       = [ (0, ErrorArm (WarpLinkError.mk ErrorCodes.E_NETWORK_ERROR "Network error"));
           (1, ErrorArm (WarpLinkError.mk ErrorCodes.E_NETWORK_ERROR "Network error")) ].
Proof.
  apply (throwing_listener_starves_the_rest decimal_elided V8_message
           second_always_throws 2 1 network_error (NonError (JSString "boom"))
           (WarpLinkError.mk ErrorCodes.E_NETWORK_ERROR "Network error") 1
           (onDeepLink 2 two_listeners)).
  - reflexivity.
  - reflexivity.
  - intros l' Hl' event st.
    apply list_elem_of_singleton in Hl'. by subst.
  - reflexivity.
  - lia.
Defined.

Lemma configure_forwards_options_witness :
  exists config,
    calls (snd (configure sample_options (initial (AndroidModule None))))
    = [CallConfigure config]
    /\ assoc "apiEndpoint" config = Some (JSString "https://api.example.com")
    /\ assoc "debugLogging" config = None
    /\ assoc "matchWindowHours" config = None.
Proof.
  destruct (configure_forwards_options sample_options (initial (AndroidModule None)))
    as (config & Hcalls & _ & He & Hd & Hm & _).
  - apply API_KEY_PATTERN_spec. reflexivity.
  - exists config. repeat split; assumption.
Defined.

Lemma accepted_key_is_exact_witness :
  String.length "wl_live_abcdefghijklmnopqrstuvwxyz012345" = 40%nat
  /\ forall extra,
       RegExp_test API_KEY_PATTERN
         ("wl_live_abcdefghijklmnopqrstuvwxyz012345" +:+ extra) = true ->
       extra = "".
Proof.
  apply (accepted_key_is_exact "wl_live_abcdefghijklmnopqrstuvwxyz012345").
  reflexivity.
Defined.

Lemma ios_pushes_iff_subscribed_witness :
  incomingURL "https://aplnk.to/abc123" (onDeepLink 0 ios_cold_start)
  = resolveAndDispatch_call "https://aplnk.to/abc123" (onDeepLink 0 ios_cold_start).
Proof.
  destruct (ios_pushes_iff_subscribed decimal_elided V8_message all_quiet
              [OpOnDeepLink 0]
              (Some "https://aplnk.to/init1") (onDeepLink 0 ios_cold_start)
              "https://aplnk.to/abc123") as (Hpush & _ & _).
  - reflexivity.
  - apply Hpush. discriminate.
Defined.
